(** * Capacity-bounded garbage collection of the swarm localstore

    A shallow embedding of [swarm/storage/localstore/gc.go] and proofs of
    the properties its specification states about the collector:
    the target computation [gcTarget], the size accountant [incGCSize]
    and the collector loop [collectGarbage]. *)

From Stdlib Require Import String ZArith List Bool Lia PrimFloat Uint63.
Import ListNotations.
Local Open Scope Z_scope.

(** ** Machine integers

    Go's [int64] is a 64-bit two's complement integer whose arithmetic wraps
    around silently.  Values are carried as [Z]; every arithmetic result of
    the source goes through [wrap64]. *)
Module Int64.

Definition min_int : Z := - 2 ^ 63.
Definition max_int : Z := 2 ^ 63 - 1.

Definition in_range (z : Z) : Prop := min_int <= z <= max_int.

Definition wrap64 (z : Z) : Z := (z + 2 ^ 63) mod 2 ^ 64 - 2 ^ 63.

Definition add (x y : Z) : Z := wrap64 (x + y).
Definition sub (x y : Z) : Z := wrap64 (x - y).
Definition neg (x : Z) : Z := wrap64 (- x).

End Int64.

(** ** Binary64 floating point

    [gcTarget] multiplies in [float64].  A finite binary64 number is carried
    as an integer significand and a power of two; [round] is IEEE 754
    round-to-nearest, ties-to-even, to 53 significant bits.  The values that
    occur (an [int64] times a ratio in (0,1]) stay far from the overflow
    threshold and from the subnormal range, so the exponent is not clamped. *)
Module Float64.

Record t : Set := mk { mant : Z; expo : Z }.

Definition prec : Z := 53.

(** number of significant bits of a magnitude *)
Definition bitlen (a : Z) : Z := if a =? 0 then 0 else Z.log2 a + 1.

Definition round (m e : Z) : t :=
  let a := Z.abs m in
  let k := bitlen a - prec in
  if k <=? 0 then mk m e
  else
    let q := Z.shiftr a k in
    let r := a mod 2 ^ k in
    let half := 2 ^ (k - 1) in
    let q' := if (half <? r) || ((r =? half) && Z.odd q) then q + 1 else q in
    mk (Z.sgn m * q') (e + k).

(** Go's conversion [float64(x)] of an [int64] *)
Definition of_int64 (x : Z) : t := round x 0.

Definition mul (x y : t) : t := round (mant x * mant y) (expo x + expo y).

(** Go's conversion [int64(f)]: the fraction is discarded (truncation
    towards zero) *)
Definition to_int64 (f : t) : Z :=
  if 0 <=? expo f then Int64.wrap64 (mant f * 2 ^ expo f)
  else Int64.wrap64 (Z.quot (mant f) (2 ^ (- expo f))).

(** the [float64] nearest to the decimal literal [0.9]:
    0x1.ccccccccccccdp-1 *)
Definition c0_9 : t := mk 8106479329266893 (-53).

End Float64.

(** The same computation on the kernel's hardware binary64 numbers, used to
    cross-check [Float64] on sample inputs. *)
Module HardFloat.

Definition to_Z (f : float) : Z :=
  let '(m, e) := PrimFloat.frshiftexp f in
  let n := Uint63.to_Z (PrimFloat.normfr_mantissa m) in
  let sh := Uint63.to_Z e - 2101 - 53 in
  if 0 <=? sh then n * 2 ^ sh else n / 2 ^ (- sh).

Definition target (capacity : Z) : Z :=
  to_Z (PrimFloat.mul (PrimFloat.of_uint63 (Uint63.of_Z capacity))
          0x1.ccccccccccccdp-1%float).

End HardFloat.

(** ** Package-level variables *)
Record Globals : Set := {
  gcTargetRatio : Float64.t;
  gcBatchSize : Z
}.

Definition defaults : Globals :=
  {| gcTargetRatio := Float64.c0_9; gcBatchSize := 1000 |}.

(** ** The store

    The parts of [DB] that the collector touches. *)

(** Modelled from the spec: [shed.IndexItem] is declared in package [shed];
    a collectible item is a chunk reference together with the priority key
    that places it in the eviction-order index. *)
Record IndexItem : Set := { Address : N; Priority : Z }.

(** the indexes of [DB] named in [collectGarbage] *)
Inductive IndexName : Set :=
| retrievalCompositeIndex
| retrievalDataIndex
| retrievalAccessIndex
| pullIndex
| gcIndex.

Definition IndexName_eqb (a b : IndexName) : bool :=
  match a, b with
  | retrievalCompositeIndex, retrievalCompositeIndex
  | retrievalDataIndex, retrievalDataIndex
  | retrievalAccessIndex, retrievalAccessIndex
  | pullIndex, pullIndex
  | gcIndex, gcIndex => true
  | _, _ => false
  end.

(** Modelled from the spec: a [leveldb.Batch] is the atomic unit of queued
    deletes, here the list of (index, item) pairs in queueing order. *)
Definition Batch : Set := list (IndexName * IndexItem).

(** Modelled from the spec: [Index.DeleteInBatch] queues one delete. *)
Definition DeleteInBatch (ix : IndexName) (batch : Batch) (item : IndexItem) : Batch :=
  batch ++ [(ix, item)].

(** Modelled from the spec: [collectGarbageTrigger] is made in
    [localstore.go] as a single-slot channel.  Its state is the number of
    buffered signals; a send with [default] case never blocks and is
    dropped when the slot is taken. *)
Module Chan.

Definition slots : nat := 1.

Definition trySend (buffered : nat) : nat :=
  if Nat.ltb buffered slots then S buffered else buffered.

Definition tryRecv (buffered : nat) : option nat :=
  match buffered with
  | O => None
  | S k => Some k
  end.

End Chan.

(** Modelled from the spec: [shed.DB] is the storage engine underneath the
    indexes; its state is the ordered content of every index. *)
Record ShedDB : Set := {
  inRetrievalComposite : list IndexItem;
  inRetrievalData : list IndexItem;
  inRetrievalAccess : list IndexItem;
  inPull : list IndexItem;
  inGC : list IndexItem
}.

Definition entriesOf (s : ShedDB) (ix : IndexName) : list IndexItem :=
  match ix with
  | retrievalCompositeIndex => inRetrievalComposite s
  | retrievalDataIndex => inRetrievalData s
  | retrievalAccessIndex => inRetrievalAccess s
  | pullIndex => inPull s
  | gcIndex => inGC s
  end.

Coercion entriesOf : ShedDB >-> Funclass.

Record DB : Set := {
  capacity : Z;
  gcSize : Z;
  collectGarbageTrigger : nat;
  close : bool;
  useRetrievalCompositeIndex : bool;
  shed : ShedDB
}.

Definition with_gcSize (v : Z) (db : DB) : DB :=
  {| capacity := capacity db; gcSize := v;
     collectGarbageTrigger := collectGarbageTrigger db; close := close db;
     useRetrievalCompositeIndex := useRetrievalCompositeIndex db;
     shed := shed db |}.

Definition with_trigger (n : nat) (db : DB) : DB :=
  {| capacity := capacity db; gcSize := gcSize db;
     collectGarbageTrigger := n; close := close db;
     useRetrievalCompositeIndex := useRetrievalCompositeIndex db;
     shed := shed db |}.

Definition with_close (b : bool) (db : DB) : DB :=
  {| capacity := capacity db; gcSize := gcSize db;
     collectGarbageTrigger := collectGarbageTrigger db; close := b;
     useRetrievalCompositeIndex := useRetrievalCompositeIndex db;
     shed := shed db |}.

Definition with_shed (s : ShedDB) (db : DB) : DB :=
  {| capacity := capacity db; gcSize := gcSize db;
     collectGarbageTrigger := collectGarbageTrigger db; close := close db;
     useRetrievalCompositeIndex := useRetrievalCompositeIndex db;
     shed := s |}.

(** Modelled from the spec: committing a batch removes, index by index, the
    entry of every queued item. *)
Definition deleteEntry (s : ShedDB) (d : IndexName * IndexItem) : ShedDB :=
  let del (ix : IndexName) (l : list IndexItem) :=
    if IndexName_eqb ix (fst d)
    then filter (fun x => negb (N.eqb (Address x) (Address (snd d)))) l
    else l in
  {| inRetrievalComposite := del retrievalCompositeIndex (inRetrievalComposite s);
     inRetrievalData := del retrievalDataIndex (inRetrievalData s);
     inRetrievalAccess := del retrievalAccessIndex (inRetrievalAccess s);
     inPull := del pullIndex (inPull s);
     inGC := del gcIndex (inGC s) |}.

(** Modelled from the spec: [shed.DB.WriteBatch] either applies every queued
    delete or, when the engine reports an error, none of them. *)
Definition WriteBatch (fails : bool) (batch : Batch) (db : DB) : option DB :=
  if fails then None else Some (with_shed (fold_left deleteEntry batch (shed db)) db).

(** ** gc.go *)

(** [func (db *DB) gcTarget() (target int64)] *)
Definition gcTarget (g : Globals) (db : DB) : Z :=
  Float64.to_int64 (Float64.mul (Float64.of_int64 (capacity db)) (gcTargetRatio g)).

(** [func (db *DB) incGCSize(count int64)] *)
Definition incGCSize (count : Z) (db : DB) : DB :=
  let new := Int64.add (gcSize db) count in
  let db := with_gcSize new db in
  if capacity db <=? new
  then with_trigger (Chan.trySend (collectGarbageTrigger db)) db
  else db.

(** the local variables of one run of the [select] case *)
Record Locals : Set := {
  batch : Batch;
  triggerNextIteration : bool;
  collectedCount : Z
}.

Definition newLocals : Locals :=
  {| batch := []; triggerNextIteration := false; collectedCount := 0 |}.

(** the deletes queued for one item: retrieve, pull, gc *)
Definition queueDeletes (db : DB) (b : Batch) (item : IndexItem) : Batch :=
  let b :=
    if useRetrievalCompositeIndex db
    then DeleteInBatch retrievalCompositeIndex b item
    else DeleteInBatch retrievalAccessIndex
           (DeleteInBatch retrievalDataIndex b item) item in
  let b := DeleteInBatch pullIndex b item in
  DeleteInBatch gcIndex b item.

(** the function literal handed to [db.gcIndex.IterateAll]; the result is
    [stop] and the updated captured variables (its [err] is always nil) *)
Definition gcVisit (g : Globals) (target : Z) (db : DB) (l : Locals) (item : IndexItem)
  : bool * Locals :=
  let gcSize := gcSize db in
  if Int64.sub gcSize (collectedCount l) <=? target then (true, l)
  else
    let batch := queueDeletes db (batch l) item in
    let collectedCount := Int64.add (collectedCount l) 1 in
    if gcBatchSize g <=? collectedCount
    then (true, {| batch := batch; triggerNextIteration := true;
                   collectedCount := collectedCount |})
    else (false, {| batch := batch;
                    triggerNextIteration := triggerNextIteration l;
                    collectedCount := collectedCount |}).

(** What the rest of the process does while one run is under way:
    [foreground] lists the [incGCSize] calls of other goroutines, its k-th
    element being those that land just before the k-th visit reads
    [gcSize]; the elements left over when the iteration ends land between
    the iteration and the commit.  [iterateFailsAt = Some k] makes the index
    iteration fail once [k] entries were delivered; [writeBatchFails] makes
    the commit fail. *)
Record PassIO : Set := {
  foreground : list (list Z);
  iterateFailsAt : option nat;
  writeBatchFails : bool
}.

Definition quiet : PassIO :=
  {| foreground := []; iterateFailsAt := None; writeBatchFails := false |}.

Definition incAll (counts : list Z) (db : DB) : DB :=
  fold_left (fun d c => incGCSize c d) counts db.

(** Modelled from the spec: [Index.IterateAll] delivers the entries in
    ascending order until the visitor asks to stop, the entries run out or
    reading fails.  The result is the store as the last visit saw it, the
    captured variables, whether an error is returned, and the foreground
    calls that have not landed yet. *)
Fixpoint IterateAll (fn : DB -> Locals -> IndexItem -> bool * Locals)
  (items : list IndexItem) (failAt : option nat) (fg : list (list Z))
  (db : DB) (l : Locals) {struct items} : DB * Locals * bool * list (list Z) :=
  match failAt, items with
  | Some O, _ => (db, l, true, fg)
  | _, [] => (db, l, false, fg)
  | _, item :: rest =>
      let db := incAll (hd [] fg) db in
      let '(stop, l') := fn db l item in
      if stop then (db, l', false, tl fg)
      else IterateAll fn rest (option_map Nat.pred failAt) (tl fg) db l'
  end.

(** what one run leaves behind for an observer: the messages given to
    [log.Error], the batch handed to [WriteBatch], whether that call
    succeeded, and the argument [testHookCollectGarbage] is called with
    when it is set *)
Record PassReport : Set := {
  logged : list string;
  written : Batch;
  committed : bool;
  hooked : Z
}.

(** [case <-db.collectGarbageTrigger:] up to the call of [WriteBatch]:
    the store, the locals and whether [IterateAll] returned an error *)
Definition iteratePhase (g : Globals) (target : Z) (io : PassIO) (db : DB)
  : DB * Locals * bool :=
  let '(db, l, err, late) :=
    IterateAll (gcVisit g target) (shed db gcIndex) (iterateFailsAt io)
      (foreground io) db newLocals in
  (incAll (concat late) db, l, err).

(** from the call of [WriteBatch] to the end of the case *)
Definition commitPhase (fails : bool) (l : Locals) (err : bool) (db : DB)
  : DB * PassReport :=
  let log1 := if err then ["localstore collect garbage"%string] else [] in
  match WriteBatch fails (batch l) db with
  | None =>
      (db, {| logged := log1 ++ ["localstore collect garbage write batch"%string];
              written := batch l; committed := false;
              hooked := collectedCount l |})
  | Some db =>
      let db := incGCSize (Int64.neg (collectedCount l)) db in
      let db :=
        if triggerNextIteration l
        then with_trigger (Chan.trySend (collectGarbageTrigger db)) db
        else db in
      (db, {| logged := log1; written := batch l; committed := true;
              hooked := collectedCount l |})
  end.

(** the body of [case <-db.collectGarbageTrigger:], after the receive *)
Definition collectGarbageRun (g : Globals) (target : Z) (io : PassIO) (db : DB)
  : DB * PassReport :=
  let '(db, l, err) := iteratePhase g target io db in
  commitPhase (writeBatchFails io) l err db.

(** The collector goroutine is either blocked in its [select] or has
    returned. *)
Inductive Collector : Set := Idle | Closed.

Record World : Set := {
  store : DB;
  collector : Collector;
  reports : list PassReport
}.

(** The atomic actions of the process: a foreground [incGCSize], the two
    cases of the collector's [select], and the closing of [db.close]. *)
Inductive Event : Set :=
| Inc (count : Z)
| RecvTrigger (io : PassIO)
| Shutdown
| RecvClose.

(** [func (db *DB) collectGarbage()], one action at a time; [None] when the
    action is not enabled.  The source computes [target] once, before the
    loop; [capacity] never changes, so it is the same value at every run. *)
Definition step (g : Globals) (ev : Event) (w : World) : option World :=
  match ev with
  | Inc count =>
      Some {| store := incGCSize count (store w); collector := collector w;
              reports := reports w |}
  | Shutdown =>
      Some {| store := with_close true (store w); collector := collector w;
              reports := reports w |}
  | RecvClose =>
      match collector w with
      | Idle =>
          if close (store w)
          then Some {| store := store w; collector := Closed; reports := reports w |}
          else None
      | Closed => None
      end
  | RecvTrigger io =>
      match collector w with
      | Idle =>
          match Chan.tryRecv (collectGarbageTrigger (store w)) with
          | Some n =>
              let target := gcTarget g (store w) in
              let '(db, r) := collectGarbageRun g target io (with_trigger n (store w)) in
              Some {| store := db; collector := Idle; reports := reports w ++ [r] |}
          | None => None
          end
      | Closed => None
      end
  end.

Fixpoint run (g : Globals) (evs : list Event) (w : World) : option World :=
  match evs with
  | [] => Some w
  | ev :: rest =>
      match step g ev w with
      | Some w' => run g rest w'
      | None => None
      end
  end.

(** ** Sample stores *)

Definition item (i : nat) : IndexItem :=
  {| Address := N.of_nat i; Priority := Z.of_nat i |}.

Definition items (n : nat) : list IndexItem := map item (seq 0 n).

(** a store of the given capacity whose accountant reads [size], whose
    indexes hold [n] chunks and whose trigger slot holds [sig] signals *)
Definition sampleDB (cap size : Z) (n sig : nat) : DB :=
  {| capacity := cap; gcSize := size; collectGarbageTrigger := sig;
     close := false; useRetrievalCompositeIndex := false;
     shed := {| inRetrievalComposite := []; inRetrievalData := items n;
                inRetrievalAccess := items n; inPull := items n;
                inGC := items n |} |}.

(** ** Vocabulary of the specification *)

(** a trigger signal is pending *)
Definition pending (db : DB) : Prop := collectGarbageTrigger db <> 0%nat.

(** the typing invariants of the fields of [DB] *)
Definition wfDB (db : DB) : Prop :=
  Int64.in_range (capacity db) /\ Int64.in_range (gcSize db) /\
  (collectGarbageTrigger db <= Chan.slots)%nat.

(** the dependent indexes in use, in the order the collector visits them *)
Definition dependentIndexes (db : DB) : list IndexName :=
  if useRetrievalCompositeIndex db
  then [retrievalCompositeIndex; pullIndex]
  else [retrievalDataIndex; retrievalAccessIndex; pullIndex].

(** the deletes of one chunk across the dependent indexes and the
    eviction-order index *)
Definition deletesOf (db : DB) (item : IndexItem) : Batch :=
  map (fun ix => (ix, item)) (dependentIndexes db ++ [gcIndex]).

(** floor (capacity * 0.9) over the integers *)
Definition floorNineTenths (capacity : Z) : Z := capacity * 9 / 10.

(** every call of the sequence returns a value [>= capacity] *)
Fixpoint allReach (counts : list Z) (db : DB) : bool :=
  match counts with
  | [] => true
  | c :: rest =>
      (capacity db <=? Int64.add (gcSize db) c) && allReach rest (incGCSize c db)
  end.

(** some call of the sequence returns a value [>= capacity] *)
Fixpoint anyReach (counts : list Z) (db : DB) : bool :=
  match counts with
  | [] => false
  | c :: rest =>
      (capacity db <=? Int64.add (gcSize db) c) || anyReach rest (incGCSize c db)
  end.

Definition sumZ (l : list Z) : Z := fold_right Z.add 0 l.

(** the accountant increments of a sequence of actions *)
Definition incrementsOf (ev : Event) : list Z :=
  match ev with
  | Inc c => [c]
  | RecvTrigger io => concat (foreground io)
  | Shutdown | RecvClose => []
  end.

(** number of items ever admitted *)
Definition admitted (evs : list Event) : Z := sumZ (flat_map incrementsOf evs).

(** every increment of the sequence is an admission *)
Definition admissionsOnly (evs : list Event) : Prop :=
  Forall (fun c => 0 < c) (flat_map incrementsOf evs).

(** total [collectedCount] of the runs whose commit succeeded *)
Definition evicted (rs : list PassReport) : Z :=
  sumZ (map (fun r => if committed r then hooked r else 0) rs).

(** the store once the collector has taken the pending signal *)
Definition afterRecv (db : DB) : DB :=
  with_trigger (Nat.pred (collectGarbageTrigger db)) db.

(** a freshly started store *)
Definition startWorld (db : DB) : World :=
  {| store := db; collector := Idle; reports := [] |}.

(** what holds of the captured variables while the iteration goes on *)
Definition iterInv (g : Globals) (l : Locals) : Prop :=
  0 <= collectedCount l < Int64.max_int /\
  triggerNextIteration l = false /\
  (0 < gcBatchSize g -> collectedCount l < gcBatchSize g).

(** the outcome that C2 promises of a run on [db] under [io]: when the
    commit succeeds, the accountant is at most the target afterwards, or
    the run collected exactly [gcBatchSize] items and a signal is pending *)
Definition reachesTargetOrCap (g : Globals) (io : PassIO) (db : DB) : Prop :=
  let target := gcTarget g db in
  let '(post, r) := collectGarbageRun g target io db in
  committed r = true ->
  gcSize post <= target \/ (hooked r = gcBatchSize g /\ pending post).

(** the significand of [Float64.c0_9]; ten times it is [9 * 2^53 + 2] *)
Definition sig09 : Z := 8106479329266893.

(** the largest capacity whose product with [sig09] stays below [2^103] *)
Definition productBound : Z := 1250999896491804.

(** the least capacity at which the [float64] product rounds up to the
    next integer *)
Definition firstInexactCapacity : Z := 1250999896491811.

(** capacities on which the [Float64] model is compared with the hardware
    arithmetic *)
Definition samples : list Z :=
  [0; 1; 9; 10; 11; 99; 100; 101; 1000; 12345; 2 ^ 31; 2 ^ 49 + 1; 2 ^ 50 - 9;
   2 ^ 50 + 1; 1250999896491804; 1250999896491805; 1250999896491810;
   1250999896491811; 1251000000000001; 2 ^ 52 + 1; 2 ^ 53 + 1; 2 ^ 53 + 3;
   2 ^ 60 + 12345; 2 ^ 62 + 1; 2 ^ 63 - 1025; 2 ^ 63 - 1].


(** number of deletes queued per collected entry *)
Definition deletesPerEntry (db : DB) : Z :=
  if useRetrievalCompositeIndex db then 3 else 4.

(** what an undisturbed run collects: as many entries as the accountant
    exceeds the target by, but no more than the cap and no more than the
    index holds *)
Definition expectedCount (g : Globals) (target : Z) (db : DB) : Z :=
  Z.min (gcBatchSize g)
    (Z.min (Z.max 0 (gcSize db - target))
       (Z.of_nat (List.length (shed db gcIndex)))).

(** the chunk addresses of the eviction-order index *)
Definition gcAddresses (db : DB) : list N := map Address (shed db gcIndex).

(** what C6 promises of a burst of requests [counts] made on [w]: they leave
    exactly one signal, one run can start, and whatever that run meets no
    second run can start after it *)
Definition onePassPerBurst (g : Globals) (counts : list Z) (w : World) : Prop :=
  exists w1,
    run g (map Inc counts) w = Some w1 /\
    collectGarbageTrigger (store w1) = 1%nat /\
    (forall io, step g (RecvTrigger io) w1 <> None) /\
    (forall io io', run g [RecvTrigger io; RecvTrigger io'] w1 = None).

(** ** Machine arithmetic *)

Ltac int64_lia :=
  unfold Int64.in_range, Int64.min_int, Int64.max_int in *; lia.

Lemma wrap64_id z : Int64.in_range z -> Int64.wrap64 z = z.
Proof.
  unfold Int64.in_range, Int64.wrap64, Int64.min_int, Int64.max_int.
  intros H. rewrite Z.mod_small; lia.
Qed.

Lemma wrap64_in_range z : Int64.in_range (Int64.wrap64 z).
Proof.
  unfold Int64.in_range, Int64.wrap64, Int64.min_int, Int64.max_int.
  pose proof (Z.mod_pos_bound (z + 2 ^ 63) (2 ^ 64) ltac:(lia)). lia.
Qed.

(** ** The accountant *)

Lemma incGCSize_gcSize c db :
  gcSize (incGCSize c db) = Int64.add (gcSize db) c.
Proof. unfold incGCSize; cbn. destruct (_ <=? _); reflexivity. Qed.

Lemma incGCSize_capacity c db : capacity (incGCSize c db) = capacity db.
Proof. unfold incGCSize; cbn. destruct (_ <=? _); reflexivity. Qed.

Lemma incGCSize_shed c db : shed (incGCSize c db) = shed db.
Proof. unfold incGCSize; cbn. destruct (_ <=? _); reflexivity. Qed.

Lemma incGCSize_mode c db :
  useRetrievalCompositeIndex (incGCSize c db) = useRetrievalCompositeIndex db.
Proof. unfold incGCSize; cbn. destruct (_ <=? _); reflexivity. Qed.

Lemma incGCSize_close c db : close (incGCSize c db) = close db.
Proof. unfold incGCSize; cbn. destruct (_ <=? _); reflexivity. Qed.

Lemma incGCSize_trigger c db :
  collectGarbageTrigger (incGCSize c db) =
  if capacity db <=? Int64.add (gcSize db) c
  then Chan.trySend (collectGarbageTrigger db)
  else collectGarbageTrigger db.
Proof. unfold incGCSize; cbn. destruct (_ <=? _); reflexivity. Qed.

Lemma trySend_nonzero n : Chan.trySend n <> 0%nat.
Proof. unfold Chan.trySend. destruct (Nat.ltb_spec n Chan.slots); unfold Chan.slots in *; lia. Qed.

Lemma trySend_le n : (n <= Chan.slots)%nat -> Chan.trySend n = Chan.slots.
Proof. unfold Chan.trySend, Chan.slots. destruct (Nat.ltb_spec n 1); lia. Qed.

Lemma trySend_bound n : (n <= Chan.slots)%nat -> (Chan.trySend n <= Chan.slots)%nat.
Proof. intros H. rewrite trySend_le by exact H. lia. Qed.

Lemma incGCSize_wf c db : wfDB db -> wfDB (incGCSize c db).
Proof.
  intros (Hc & Hs & Ht). unfold wfDB.
  rewrite incGCSize_capacity, incGCSize_gcSize, incGCSize_trigger.
  repeat split; try apply Hc; try apply wrap64_in_range.
  destruct (_ <=? _); [apply trySend_bound|]; exact Ht.
Qed.

Lemma incAll_capacity cs : forall db, capacity (incAll cs db) = capacity db.
Proof.
  induction cs as [|c cs IH]; intros db; cbn; [reflexivity|].
  unfold incAll in IH. rewrite IH. apply incGCSize_capacity.
Qed.

Lemma incAll_shed cs : forall db, shed (incAll cs db) = shed db.
Proof.
  induction cs as [|c cs IH]; intros db; cbn; [reflexivity|].
  unfold incAll in IH. rewrite IH. apply incGCSize_shed.
Qed.

Lemma incAll_mode cs : forall db,
  useRetrievalCompositeIndex (incAll cs db) = useRetrievalCompositeIndex db.
Proof.
  induction cs as [|c cs IH]; intros db; cbn; [reflexivity|].
  unfold incAll in IH. rewrite IH. apply incGCSize_mode.
Qed.

Lemma incAll_wf cs : forall db, wfDB db -> wfDB (incAll cs db).
Proof.
  induction cs as [|c cs IH]; intros db H; cbn; [exact H|].
  apply IH, incGCSize_wf, H.
Qed.

Lemma incAll_app xs ys db : incAll (xs ++ ys) db = incAll ys (incAll xs db).
Proof. unfold incAll. apply fold_left_app. Qed.

(** ** One visit of the iteration *)

Lemma queueDeletes_app db b item :
  queueDeletes db b item = b ++ deletesOf db item.
Proof.
  unfold queueDeletes, deletesOf, dependentIndexes, DeleteInBatch.
  destruct (useRetrievalCompositeIndex db); cbn;
    repeat rewrite <- app_assoc; reflexivity.
Qed.

Lemma IterateAll_cons fn item rest failAt fg db l :
  failAt <> Some 0%nat ->
  IterateAll fn (item :: rest) failAt fg db l =
  let '(stop, l') := fn (incAll (hd [] fg) db) l item in
  if stop then (incAll (hd [] fg) db, l', false, tl fg)
  else IterateAll fn rest (option_map Nat.pred failAt) (tl fg)
         (incAll (hd [] fg) db) l'.
Proof. intros Hf. destruct failAt as [[|k]|]; [congruence| |]; reflexivity. Qed.

Lemma first_entry_fails_or_not (failAt : option nat) :
  failAt = Some 0%nat \/ failAt <> Some 0%nat.
Proof. destruct failAt as [[|k]|]; [left; reflexivity| |]; right; discriminate. Qed.

(** C3: when an entry is visited the accountant is read as it is then
    (after the foreground calls that landed before the visit).  If that
    value minus [collectedCount] is at most the target, the iteration stops
    with the captured variables untouched: nothing is queued for the entry
    and [collectedCount] is not incremented.  Otherwise the deletes of the
    entry from every dependent index in use and from the eviction-order
    index are appended to the batch and [collectedCount] grows by one. *)
Theorem visit_reads_current_accountant
  g target item rest failAt fg db l :
  failAt <> Some 0%nat ->
  let cur := incAll (hd [] fg) db in
  let d := Int64.sub (gcSize cur) (collectedCount l) in
  (d <= target ->
     gcVisit g target cur l item = (true, l) /\
     IterateAll (gcVisit g target) (item :: rest) failAt fg db l
       = (cur, l, false, tl fg)) /\
  (target < d ->
     exists stop l',
       gcVisit g target cur l item = (stop, l') /\
       batch l' = batch l ++ deletesOf cur item /\
       collectedCount l' = Int64.add (collectedCount l) 1 /\
       (0 <= collectedCount l < Int64.max_int ->
        collectedCount l' = collectedCount l + 1) /\
       (stop = true <-> gcBatchSize g <= collectedCount l') /\
       IterateAll (gcVisit g target) (item :: rest) failAt fg db l =
         if stop then (cur, l', false, tl fg)
         else IterateAll (gcVisit g target) rest
                (option_map Nat.pred failAt) (tl fg) cur l').
Proof.
  intros Hf cur d.
  pose proof (IterateAll_cons (gcVisit g target) item rest failAt fg db l Hf)
    as Hstep.
  fold cur in Hstep.
  split; intros Hd.
  - assert (Hv : gcVisit g target cur l item = (true, l)).
    { unfold gcVisit. fold d. destruct (Z.leb_spec d target); [reflexivity|lia]. }
    split; [exact Hv|]. rewrite Hstep, Hv. reflexivity.
  - unfold gcVisit in *. fold d in Hstep |- *.
    destruct (Z.leb_spec d target) as [Hle|_]; [lia|].
    rewrite queueDeletes_app in *.
    destruct (Z.leb_spec (gcBatchSize g) (Int64.add (collectedCount l) 1)) as [Hb|Hb].
    + eexists true, _. split; [reflexivity|]. cbn.
      repeat split; auto.
      intros Hr. unfold Int64.add. apply wrap64_id.
      unfold Int64.in_range, Int64.min_int, Int64.max_int in *. lia.
    + eexists false, _. split; [reflexivity|]. cbn.
      repeat split; auto; try discriminate; try lia.
      intros Hr. unfold Int64.add. apply wrap64_id.
      unfold Int64.in_range, Int64.min_int, Int64.max_int in *. lia.
Qed.

Lemma visit_reads_current_accountant_witness :
  exists stop l',
    gcVisit defaults 90 (sampleDB 100 150 6 0) newLocals (item 0) = (stop, l') /\
    batch l' = [(retrievalDataIndex, item 0); (retrievalAccessIndex, item 0);
                (pullIndex, item 0); (gcIndex, item 0)] /\
    collectedCount l' = 1.
Proof.
  destruct (visit_reads_current_accountant defaults 90 (item 0) [] None []
              (sampleDB 100 150 6 0) newLocals ltac:(discriminate)) as [_ H].
  destruct (H ltac:(reflexivity)) as (stop & l' & H1 & H2 & H3 & _).
  exists stop, l'. split; [exact H1|]. split; [exact H2|exact H3].
Defined.

(** ** The iteration as a whole *)

Lemma deletesOf_mode db db' item :
  useRetrievalCompositeIndex db' = useRetrievalCompositeIndex db ->
  deletesOf db' item = deletesOf db item.
Proof. unfold deletesOf, dependentIndexes. intros ->. reflexivity. Qed.

Lemma iterInv_new g : iterInv g newLocals.
Proof. unfold iterInv, Int64.max_int; cbn. repeat split; lia. Qed.

Lemma concat_hd_tl (fg : list (list Z)) : concat fg = hd [] fg ++ concat (tl fg).
Proof. destruct fg; reflexivity. Qed.

Section Iteration.

Variables (g : Globals) (target : Z).
Hypothesis Hcap : Int64.in_range (gcBatchSize g).

Lemma gcVisit_cases db l item :
  iterInv g l ->
  let d := Int64.sub (gcSize db) (collectedCount l) in
  let l' := fun stop =>
    {| batch := batch l ++ deletesOf db item; triggerNextIteration := stop;
       collectedCount := collectedCount l + 1 |} in
  (d <= target /\ gcVisit g target db l item = (true, l)) \/
  (target < d /\ gcBatchSize g <= collectedCount l + 1 /\
   gcVisit g target db l item = (true, l' true)) \/
  (target < d /\ collectedCount l + 1 < gcBatchSize g /\
   gcVisit g target db l item = (false, l' false)).
Proof.
  intros (Hc & Ht & Hlt) d l'. unfold gcVisit. fold d.
  destruct (Z.leb_spec d target) as [Hd|Hd]; [left; auto|right].
  rewrite queueDeletes_app.
  assert (Ha : Int64.add (collectedCount l) 1 = collectedCount l + 1).
  { unfold Int64.add. apply wrap64_id. int64_lia. }
  rewrite Ha.
  destruct (Z.leb_spec (gcBatchSize g) (collectedCount l + 1)) as [Hb|Hb].
  - left. auto.
  - right. rewrite Ht. auto.
Qed.

Lemma IterateAll_spec :
  forall entries failAt fg db l,
    iterInv g l ->
    exists db' l' err late n,
      IterateAll (gcVisit g target) entries failAt fg db l = (db', l', err, late) /\
      (n <= List.length entries)%nat /\
      collectedCount l' = collectedCount l + Z.of_nat n /\
      batch l' = batch l ++ flat_map (deletesOf db) (firstn n entries) /\
      0 <= collectedCount l' <= Int64.max_int /\
      (triggerNextIteration l' = true ->
         err = false /\ gcBatchSize g <= collectedCount l' /\
         (0 < gcBatchSize g -> collectedCount l' = gcBatchSize g)) /\
      (triggerNextIteration l' = false -> iterInv g l') /\
      incAll (concat late) db' = incAll (concat fg) db /\
      (err = true -> failAt = Some n).
Proof.
  induction entries as [|item rest IH]; intros failAt fg db l Hinv.
  - exists db, l, (match failAt with Some O => true | _ => false end), fg, 0%nat.
    split; [destruct failAt as [[|k]|]; reflexivity|].
    destruct Hinv as (Hc & Ht & Hlt).
    repeat split; cbn; try int64_lia; try congruence; auto.
    + now rewrite app_nil_r.
    + destruct failAt as [[|k]|]; congruence.
  - destruct (first_entry_fails_or_not failAt) as [->|Hf].
    { exists db, l, true, fg, 0%nat. destruct Hinv as (Hc & Ht & Hlt).
      repeat split; cbn; try int64_lia; try congruence; auto.
      now rewrite app_nil_r. }
    rewrite (IterateAll_cons _ item rest failAt fg db l Hf).
    set (cur := incAll (hd [] fg) db).
    assert (Hmode : forall it, deletesOf cur it = deletesOf db it).
    { intros it. apply deletesOf_mode. apply incAll_mode. }
    assert (Hlate : incAll (concat (tl fg)) cur = incAll (concat fg) db).
    { subst cur. rewrite (concat_hd_tl fg). now rewrite incAll_app. }
    pose proof Hinv as (Hc & Ht & Hlt).
    destruct (gcVisit_cases cur l item Hinv)
      as [(Hd & ->) | [(Hd & Hb & ->) | (Hd & Hb & ->)]].
    + exists cur, l, false, (tl fg), 0%nat.
      repeat split; cbn; try int64_lia; try congruence; auto.
      now rewrite app_nil_r.
    + exists cur, {| batch := batch l ++ deletesOf cur item;
                     triggerNextIteration := true;
                     collectedCount := collectedCount l + 1 |}, false, (tl fg), 1%nat.
      repeat split; cbn; try int64_lia; try (cbn in *; congruence); auto.
      now rewrite Hmode, app_nil_r.
    + set (l1 := {| batch := batch l ++ deletesOf cur item;
                    triggerNextIteration := false;
                    collectedCount := collectedCount l + 1 |}).
      assert (Hinv1 : iterInv g l1).
      { unfold iterInv; cbn. repeat split; int64_lia. }
      destruct (IH (option_map Nat.pred failAt) (tl fg) cur l1 Hinv1)
        as (db' & l' & err & late & n & -> & Hn & Hcc & Hbb & Hr & Htt & Hff & Hl & He).
      exists db', l', err, late, (S n).
      split; [reflexivity|].
      unfold l1 in Hcc, Hbb; cbn [collectedCount batch] in Hcc, Hbb.
      split; [cbn; lia|]. split; [lia|].
      split.
      { rewrite Hbb. cbn [firstn flat_map].
        rewrite <- app_assoc, Hmode. f_equal. f_equal.
        apply flat_map_ext. intros it. apply Hmode. }
      split; [exact Hr|]. split; [exact Htt|]. split; [exact Hff|].
      split; [now rewrite Hl|].
      intros E. specialize (He E).
      destruct failAt as [[|k]|]; cbn in He; congruence.
Qed.

Lemma iteratePhase_spec io db :
  exists pre l err n,
    iteratePhase g target io db = (pre, l, err) /\
    pre = incAll (concat (foreground io)) db /\
    (n <= List.length (shed db gcIndex))%nat /\
    collectedCount l = Z.of_nat n /\
    batch l = flat_map (deletesOf db) (firstn n (shed db gcIndex)) /\
    0 <= collectedCount l <= Int64.max_int /\
    (triggerNextIteration l = true ->
       err = false /\ gcBatchSize g <= collectedCount l /\
       (0 < gcBatchSize g -> collectedCount l = gcBatchSize g)) /\
    (triggerNextIteration l = false -> iterInv g l) /\
    (err = true -> iterateFailsAt io = Some n).
Proof.
  unfold iteratePhase.
  destruct (IterateAll_spec (shed db gcIndex) (iterateFailsAt io)
              (foreground io) db newLocals (iterInv_new g))
    as (db' & l & err & late & n & -> & Hn & Hc & Hb & Hr & Ht & Hf & Hl & He).
  exists (incAll (concat late) db'), l, err, n. cbn in Hc, Hb.
  split; [reflexivity|]. split; [exact Hl|]. split; [exact Hn|].
  split; [exact Hc|]. split; [exact Hb|]. split; [exact Hr|].
  split; [exact Ht|]. split; [exact Hf|exact He].
Qed.

End Iteration.

Lemma IterateAll_store fn entries :
  forall failAt fg db l,
    let '(db', _, _, late) := IterateAll fn entries failAt fg db l in
    incAll (concat late) db' = incAll (concat fg) db.
Proof.
  induction entries as [|it rest IH]; intros failAt fg db l.
  - destruct failAt as [[|k]|]; reflexivity.
  - destruct failAt as [[|k]|]; [reflexivity| |]; cbn [IterateAll];
      (destruct (fn _ l it) as [[|] l'];
       [ rewrite (concat_hd_tl fg), incAll_app; reflexivity
       | match goal with
         | |- context [IterateAll fn rest ?f ?q ?d ?m] =>
             specialize (IH f q d m);
             destruct (IterateAll fn rest f q d m) as [[[db' l''] err] late]
         end;
         rewrite IH, (concat_hd_tl fg), incAll_app; reflexivity ]).
Qed.

Lemma iteratePhase_store g target io db :
  fst (fst (iteratePhase g target io db)) = incAll (concat (foreground io)) db.
Proof.
  unfold iteratePhase.
  pose proof (IterateAll_store (gcVisit g target) (shed db gcIndex)
                (iterateFailsAt io) (foreground io) db newLocals) as H.
  destruct (IterateAll _ _ _ _ _ _) as [[[db' l] err] late]. exact H.
Qed.

(** ** The commit *)

Lemma wrap64_add_wrap x y : Int64.wrap64 (x + Int64.wrap64 y) = Int64.wrap64 (x + y).
Proof.
  unfold Int64.wrap64. f_equal.
  replace (x + ((y + 2 ^ 63) mod 2 ^ 64 - 2 ^ 63) + 2 ^ 63)
    with (x + (y + 2 ^ 63) mod 2 ^ 64) by lia.
  rewrite Z.add_mod_idemp_r by lia. f_equal. lia.
Qed.

Lemma add_neg_sub x y : Int64.add x (Int64.neg y) = Int64.sub x y.
Proof. unfold Int64.add, Int64.neg, Int64.sub. now rewrite wrap64_add_wrap. Qed.

Lemma commitPhase_fails l err db :
  commitPhase true l err db =
  (db, {| logged := (if err then ["localstore collect garbage"%string] else [])
                      ++ ["localstore collect garbage write batch"%string];
          written := batch l; committed := false; hooked := collectedCount l |}).
Proof. reflexivity. Qed.

Lemma commitPhase_succeeds l err db :
  commitPhase false l err db =
  (let db1 := incGCSize (Int64.neg (collectedCount l))
                (with_shed (fold_left deleteEntry (batch l) (shed db)) db) in
   if triggerNextIteration l
   then with_trigger (Chan.trySend (collectGarbageTrigger db1)) db1 else db1,
   {| logged := if err then ["localstore collect garbage"%string] else [];
      written := batch l; committed := true; hooked := collectedCount l |}).
Proof. unfold commitPhase, WriteBatch. destruct (triggerNextIteration l); reflexivity. Qed.

Lemma commitPhase_gcSize l err db :
  gcSize (fst (commitPhase false l err db)) = Int64.sub (gcSize db) (collectedCount l).
Proof.
  rewrite commitPhase_succeeds. cbn [fst].
  destruct (triggerNextIteration l); cbn [gcSize with_trigger];
    rewrite incGCSize_gcSize; apply add_neg_sub.
Qed.

Lemma commitPhase_shed l err db :
  shed (fst (commitPhase false l err db)) = fold_left deleteEntry (batch l) (shed db).
Proof.
  rewrite commitPhase_succeeds. cbn [fst].
  destruct (triggerNextIteration l); cbn [shed with_trigger];
    rewrite incGCSize_shed; reflexivity.
Qed.

Lemma commitPhase_trigger l err db :
  collectGarbageTrigger (fst (commitPhase false l err db)) =
  let t := if capacity db <=? Int64.sub (gcSize db) (collectedCount l)
           then Chan.trySend (collectGarbageTrigger db)
           else collectGarbageTrigger db in
  if triggerNextIteration l then Chan.trySend t else t.
Proof.
  rewrite commitPhase_succeeds. cbn [fst].
  destruct (triggerNextIteration l); cbn [collectGarbageTrigger with_trigger];
    rewrite incGCSize_trigger; cbn [capacity gcSize collectGarbageTrigger with_shed];
    rewrite add_neg_sub; reflexivity.
Qed.

(** C1: when [WriteBatch] returns an error the run changes nothing: the
    store it leaves is the store as it was just before the commit, which is
    the store at the start of the run with only the increments of the other
    goroutines applied.  In particular the accountant is not decremented
    and the indexes are untouched; with no concurrent increments the store
    is exactly as before the run.  The error is logged and the hook still
    receives [collectedCount]. *)
Theorem commit_failure_changes_nothing g target io db :
  writeBatchFails io = true ->
  let '(pre, l, err) := iteratePhase g target io db in
  let '(post, r) := collectGarbageRun g target io db in
  post = pre /\
  gcSize post = gcSize pre /\
  post = incAll (concat (foreground io)) db /\
  shed post = shed db /\
  (concat (foreground io) = [] -> post = db) /\
  committed r = false /\
  written r = batch l /\
  hooked r = collectedCount l /\
  In "localstore collect garbage write batch"%string (logged r).
Proof.
  intros Hw. unfold collectGarbageRun.
  pose proof (iteratePhase_store g target io db) as Hs.
  destruct (iteratePhase g target io db) as [[pre l] err]. cbn [fst] in Hs.
  rewrite Hw, commitPhase_fails. subst pre.
  repeat split; auto.
  - apply incAll_shed.
  - intros ->. reflexivity.
  - cbn [logged]. apply in_or_app. right. left. reflexivity.
Qed.

Lemma commit_failure_changes_nothing_witness :
  let io := {| foreground := []; iterateFailsAt := None; writeBatchFails := true |} in
  let '(post, r) := collectGarbageRun defaults 90 io (sampleDB 100 150 6 0) in
  gcSize post = 150 /\ committed r = false /\ hooked r = 6.
Proof.
  pose (io := {| foreground := []; iterateFailsAt := None; writeBatchFails := true |}).
  pose proof (commit_failure_changes_nothing defaults 90 io (sampleDB 100 150 6 0)
                eq_refl) as H.
  cbv zeta. fold io.
  destruct (iteratePhase defaults 90 io (sampleDB 100 150 6 0))
    as [[pre l] err] eqn:E.
  destruct (collectGarbageRun defaults 90 io (sampleDB 100 150 6 0)) as [post r].
  destruct H as (_ & _ & H3 & _ & _ & H6 & _ & H8 & _).
  split; [rewrite H3; reflexivity|]. split; [exact H6|].
  rewrite H8. vm_compute in E. injection E as _ <- _. reflexivity.
Defined.

(** C4: with a positive per-pass cap, a run whose [collectedCount] reaches
    the cap stopped iterating at exactly that count and recorded that
    another run is needed.  If the commit succeeds the accountant is
    decremented by [collectedCount] and a signal is pending afterwards (the
    slot never holds more than one); if the commit fails the store is left
    as it was before the commit: no decrement, no send. *)
Theorem cap_reached_rearms_iff_committed g target io db pre l err :
  0 < gcBatchSize g <= Int64.max_int ->
  iteratePhase g target io db = (pre, l, err) ->
  gcBatchSize g <= collectedCount l ->
  collectedCount l = gcBatchSize g /\
  triggerNextIteration l = true /\
  let '(post, r) := collectGarbageRun g target io db in
  hooked r = gcBatchSize g /\
  committed r = negb (writeBatchFails io) /\
  if writeBatchFails io
  then post = pre
  else gcSize post = Int64.sub (gcSize pre) (collectedCount l) /\
       pending post /\
       ((collectGarbageTrigger pre <= Chan.slots)%nat ->
        collectGarbageTrigger post = Chan.slots).
Proof.
  intros Hcap E Hreach.
  assert (Hr : Int64.in_range (gcBatchSize g)) by int64_lia.
  destruct (iteratePhase_spec g target Hr io db)
    as (pre' & l' & err' & n & E' & _ & _ & _ & _ & _ & Ht & Hf & _).
  rewrite E in E'. injection E' as <- <- <-.
  assert (Htrig : triggerNextIteration l = true).
  { destruct (triggerNextIteration l); [reflexivity|].
    destruct (Hf eq_refl) as (_ & _ & Hlt). specialize (Hlt (proj1 Hcap)). lia. }
  destruct (Ht Htrig) as (_ & _ & Heq). specialize (Heq (proj1 Hcap)).
  split; [exact Heq|]. split; [exact Htrig|].
  unfold collectGarbageRun. rewrite E.
  destruct (writeBatchFails io).
  - rewrite commitPhase_fails. cbn. auto.
  - pose proof (commitPhase_gcSize l err pre) as Hg.
    pose proof (commitPhase_trigger l err pre) as Hs.
    assert (Hh : hooked (snd (commitPhase false l err pre)) = collectedCount l
                 /\ committed (snd (commitPhase false l err pre)) = true).
    { rewrite commitPhase_succeeds. cbn. auto. }
    destruct (commitPhase false l err pre) as [post r]. cbn [fst snd] in *.
    rewrite Htrig in Hs. cbv zeta in Hs.
    destruct Hh as [-> ->]. repeat split; auto.
    + unfold pending. rewrite Hs. apply trySend_nonzero.
    + intros Hle. rewrite Hs. apply trySend_le.
      destruct (_ <=? _); [apply trySend_bound|]; exact Hle.
Qed.

Lemma cap_reached_rearms_iff_committed_witness :
  let g := {| gcTargetRatio := Float64.c0_9; gcBatchSize := 3 |} in
  let '(post, r) := collectGarbageRun g 90 quiet (sampleDB 100 200 6 0) in
  hooked r = 3 /\ gcSize post = 197 /\ collectGarbageTrigger post = 1%nat.
Proof.
  pose (g := {| gcTargetRatio := Float64.c0_9; gcBatchSize := 3 |}).
  cbv zeta. fold g.
  destruct (iteratePhase g 90 quiet (sampleDB 100 200 6 0)) as [[pre l] err] eqn:E.
  assert (Hcap : 0 < gcBatchSize g <= Int64.max_int)
    by (vm_compute; split; congruence).
  assert (Hreach : gcBatchSize g <= collectedCount l).
  { vm_compute in E. injection E as _ <- _. vm_compute. congruence. }
  assert (Hpre : (collectGarbageTrigger pre <= Chan.slots)%nat).
  { vm_compute in E. injection E as <- _ _. vm_compute. lia. }
  assert (Hg : gcSize pre = 200).
  { vm_compute in E. injection E as <- _ _. reflexivity. }
  pose proof (cap_reached_rearms_iff_committed g 90 quiet (sampleDB 100 200 6 0)
                pre l err Hcap E Hreach) as (Hc & _ & H).
  destruct (collectGarbageRun g 90 quiet (sampleDB 100 200 6 0)) as [post r].
  cbn [writeBatchFails quiet] in H.
  destruct H as (Hh & _ & Hg' & _ & Ht).
  split; [exact Hh|]. split; [rewrite Hg', Hg, Hc; reflexivity|].
  apply Ht, Hpre.
Defined.

(** C9: the decrement after a successful commit goes through [incGCSize],
    so whenever the accountant minus [collectedCount] is still at least the
    capacity a signal is pending after the run, cap hit or not. *)
Theorem successful_run_over_capacity_rearms g target io db pre l err :
  Int64.in_range (gcBatchSize g) ->
  wfDB db ->
  writeBatchFails io = false ->
  iteratePhase g target io db = (pre, l, err) ->
  capacity db <= gcSize pre - collectedCount l ->
  pending (fst (collectGarbageRun g target io db)).
Proof.
  intros Hcap Hwf Hw E Hover.
  destruct (iteratePhase_spec g target Hcap io db)
    as (pre' & l' & err' & n & E' & Hpre & _ & _ & _ & Hc & _).
  rewrite E in E'. injection E' as <- <- <-.
  assert (Hwfp : wfDB pre) by (subst pre; apply incAll_wf, Hwf).
  assert (Hcp : capacity pre = capacity db) by (subst pre; apply incAll_capacity).
  destruct Hwf as (Hc1 & _). destruct Hwfp as (_ & Hg & _).
  unfold collectGarbageRun. rewrite E, Hw.
  unfold pending. rewrite commitPhase_trigger. cbv zeta.
  assert (Hsub : Int64.sub (gcSize pre) (collectedCount l)
                 = gcSize pre - collectedCount l).
  { unfold Int64.sub. apply wrap64_id. int64_lia. }
  rewrite Hsub, Hcp.
  destruct (Z.leb_spec (capacity db) (gcSize pre - collectedCount l)); [|lia].
  destruct (triggerNextIteration l); apply trySend_nonzero.
Qed.

Lemma successful_run_over_capacity_rearms_witness :
  let '(post, r) := collectGarbageRun defaults 90 quiet (sampleDB 100 150 4 0) in
  pending post.
Proof.
  destruct (iteratePhase defaults 90 quiet (sampleDB 100 150 4 0))
    as [[pre l] err] eqn:E.
  assert (Hcap : Int64.in_range (gcBatchSize defaults))
    by (vm_compute; split; congruence).
  assert (Hwf : wfDB (sampleDB 100 150 4 0)).
  { repeat split; try (vm_compute; congruence). cbn. unfold Chan.slots. lia. }
  assert (Hover : capacity (sampleDB 100 150 4 0) <= gcSize pre - collectedCount l).
  { vm_compute in E. injection E as <- <- _. vm_compute. congruence. }
  pose proof (successful_run_over_capacity_rearms defaults 90 quiet
                (sampleDB 100 150 4 0) pre l err Hcap Hwf eq_refl E Hover) as H.
  destruct (collectGarbageRun defaults 90 quiet (sampleDB 100 150 4 0)) as [post r].
  exact H.
Defined.

(** ** The collector loop *)

Lemma afterRecv_capacity db : capacity (afterRecv db) = capacity db.
Proof. reflexivity. Qed.

Lemma step_RecvTrigger g io w :
  step g (RecvTrigger io) w =
  match collector w with
  | Idle =>
      if Nat.eqb (collectGarbageTrigger (store w)) 0 then None
      else
        let res := collectGarbageRun g (gcTarget g (store w)) io (afterRecv (store w)) in
        Some {| store := fst res; collector := Idle; reports := reports w ++ [snd res] |}
  | Closed => None
  end.
Proof.
  unfold step, afterRecv. destruct (collector w); [|reflexivity].
  destruct (collectGarbageTrigger (store w)) as [|n]; cbn [Chan.tryRecv Nat.eqb Nat.pred];
    [reflexivity|].
  destruct (collectGarbageRun _ _ _ _) as [db r]. reflexivity.
Qed.

Lemma step_RecvTrigger_enabled g io w :
  step g (RecvTrigger io) w <> None <-> collector w = Idle /\ pending (store w).
Proof.
  rewrite step_RecvTrigger. unfold pending.
  destruct (collector w).
  - destruct (Nat.eqb_spec (collectGarbageTrigger (store w)) 0) as [E|E].
    + split; [congruence|]. intros [_ H]. congruence.
    + split; [auto|]. cbv zeta. discriminate.
  - split; [congruence|]. intros [H _]. discriminate.
Qed.

(** C7: when [IterateAll] returns an error in the middle of a run, the
    error is logged, and [WriteBatch] is still called with the deletes of
    every entry delivered before the failure; whether the run commits
    depends on that call alone.  The collector is back in its [select]
    afterwards and takes the next signal as before. *)
Theorem iteration_error_is_not_fatal g io w pre l :
  Int64.in_range (gcBatchSize g) ->
  collector w = Idle ->
  pending (store w) ->
  iteratePhase g (gcTarget g (store w)) io (afterRecv (store w)) = (pre, l, true) ->
  exists w' r n,
    step g (RecvTrigger io) w = Some w' /\
    collector w' = Idle /\
    reports w' = reports w ++ [r] /\
    In "localstore collect garbage"%string (logged r) /\
    iterateFailsAt io = Some n /\
    written r = flat_map (deletesOf (store w)) (firstn n (shed (store w) gcIndex)) /\
    hooked r = Z.of_nat n /\
    committed r = negb (writeBatchFails io) /\
    (writeBatchFails io = false ->
     shed (store w') = fold_left deleteEntry (written r) (shed (store w))) /\
    (forall io', step g (RecvTrigger io') w' <> None <-> pending (store w')).
Proof.
  intros Hcap Hidle Hpend E.
  destruct (iteratePhase_spec g (gcTarget g (store w)) Hcap io (afterRecv (store w)))
    as (pre' & l' & err' & n & E' & Hpre & _ & Hc & Hb & _ & _ & _ & He).
  rewrite E in E'. injection E' as <- <- <-. specialize (He eq_refl).
  rewrite step_RecvTrigger, Hidle.
  destruct (Nat.eqb_spec (collectGarbageTrigger (store w)) 0) as [Z0|_];
    [contradiction|].
  cbv zeta. unfold collectGarbageRun. rewrite E.
  eexists _, _, n. split; [reflexivity|]. cbn [collector reports store].
  split; [reflexivity|]. split; [reflexivity|].
  assert (Hshed : shed pre = shed (store w)).
  { subst pre. rewrite incAll_shed. reflexivity. }
  assert (Hloop : forall db' rs io',
            step g (RecvTrigger io')
              {| store := db'; collector := Idle; reports := rs |} <> None
            <-> pending db').
  { intros db' rs io'. rewrite step_RecvTrigger_enabled. cbn. tauto. }
  destruct (writeBatchFails io).
  - rewrite commitPhase_fails. cbn [fst snd logged written hooked committed negb].
    split; [left; reflexivity|]. split; [exact He|]. split; [exact Hb|].
    split; [exact Hc|]. split; [reflexivity|]. split; [discriminate|].
    intros io'. apply Hloop.
  - pose proof (commitPhase_shed l true pre) as Hs.
    rewrite commitPhase_succeeds in *.
    cbn [fst snd logged written hooked committed negb] in *.
    split; [left; reflexivity|]. split; [exact He|]. split; [exact Hb|].
    split; [exact Hc|]. split; [reflexivity|].
    split; [intros _; rewrite Hs, Hshed; reflexivity|].
    intros io'. apply Hloop.
Qed.

Lemma iteration_error_is_not_fatal_witness :
  let io := {| foreground := []; iterateFailsAt := Some 2%nat;
               writeBatchFails := false |} in
  exists w' r,
    step defaults (RecvTrigger io) (startWorld (sampleDB 100 150 5 1)) = Some w' /\
    collector w' = Idle /\
    written r = deletesOf (sampleDB 100 150 5 1) (item 0)
                ++ deletesOf (sampleDB 100 150 5 1) (item 1) /\
    shed (store w') gcIndex = [item 2; item 3; item 4].
Proof.
  pose (io := {| foreground := []; iterateFailsAt := Some 2%nat;
                 writeBatchFails := false |}).
  pose (w := startWorld (sampleDB 100 150 5 1)).
  cbv zeta. fold io. fold w.
  destruct (iteratePhase defaults (gcTarget defaults (store w)) io (afterRecv (store w)))
    as [[pre l] err] eqn:E.
  assert (Herr : err = true).
  { vm_compute in E. injection E as _ _ <-. reflexivity. }
  subst err.
  assert (Hcap : Int64.in_range (gcBatchSize defaults))
    by (vm_compute; split; congruence).
  assert (Hpend : pending (store w)) by (vm_compute; congruence).
  destruct (iteration_error_is_not_fatal defaults io w pre l Hcap eq_refl Hpend E)
    as (w' & r & n & Hs & Hi & _ & _ & Hn & Hw & _ & _ & Hsh & _).
  exists w', r. split; [exact Hs|]. split; [exact Hi|].
  injection Hn as <-. split; [rewrite Hw; reflexivity|].
  rewrite (Hsh eq_refl), Hw. reflexivity.
Defined.

(** ** Requests for collection *)

Lemma incGCSize_pending c db : pending db -> pending (incGCSize c db).
Proof.
  unfold pending. rewrite incGCSize_trigger.
  destruct (_ <=? _); [intros _; apply trySend_nonzero|auto].
Qed.

Lemma incAll_pending cs : forall db, pending db -> pending (incAll cs db).
Proof.
  induction cs as [|c cs IH]; intros db H; cbn; [exact H|].
  apply IH, incGCSize_pending, H.
Qed.

Lemma incAll_pending_iff cs :
  forall db, collectGarbageTrigger db = 0%nat ->
    (pending (incAll cs db) <-> anyReach cs db = true).
Proof.
  induction cs as [|c cs IH]; intros db H0; cbn [incAll fold_left anyReach].
  - unfold pending. split; [intros H; congruence|discriminate].
  - fold (incAll cs (incGCSize c db)).
    destruct (Z.leb_spec (capacity db) (Int64.add (gcSize db) c)) as [Hr|Hr];
      cbn [orb].
    + split; [reflexivity|]. intros _. apply incAll_pending.
      unfold pending. rewrite incGCSize_trigger.
      destruct (Z.leb_spec (capacity db) (Int64.add (gcSize db) c)); [|lia].
      apply trySend_nonzero.
    + apply IH. rewrite incGCSize_trigger.
      destruct (Z.leb_spec (capacity db) (Int64.add (gcSize db) c)); [lia|exact H0].
Qed.

Lemma anyReach_app xs : forall ys db,
  anyReach (xs ++ ys) db = anyReach xs db || anyReach ys (incAll xs db).
Proof.
  induction xs as [|x xs IH]; intros ys db; cbn; [reflexivity|].
  rewrite IH, orb_assoc. reflexivity.
Qed.

Lemma run_app g xs : forall ys w,
  run g (xs ++ ys) w =
  match run g xs w with
  | Some w' => run g ys w'
  | None => None
  end.
Proof.
  induction xs as [|x xs IH]; intros ys w; cbn; [reflexivity|].
  destruct (step g x w); [apply IH|reflexivity].
Qed.

Lemma run_incs g cs : forall w,
  run g (map Inc cs) w =
  Some {| store := incAll cs (store w); collector := collector w;
          reports := reports w |}.
Proof.
  induction cs as [|c cs IH]; intros w; cbn.
  - destruct w; reflexivity.
  - rewrite IH. reflexivity.
Qed.

(** C10: a run that hits the cap and whose commit fails leaves the store as
    it was before the commit: the run itself sends nothing on the trigger
    channel.  The slot is therefore taken afterwards only if an increment
    of another goroutine reached the capacity during the run, and the
    collector starts a further run exactly when such an increment, during
    the run or later, reaches the capacity. *)
Theorem failed_capped_run_waits_for_increment g io w w' pre l err :
  (collectGarbageTrigger (store w) <= Chan.slots)%nat ->
  writeBatchFails io = true ->
  step g (RecvTrigger io) w = Some w' ->
  iteratePhase g (gcTarget g (store w)) io (afterRecv (store w)) = (pre, l, err) ->
  triggerNextIteration l = true ->
  store w' = pre /\
  collector w' = Idle /\
  store w' = incAll (concat (foreground io)) (afterRecv (store w)) /\
  (pending (store w') <->
   anyReach (concat (foreground io)) (afterRecv (store w)) = true) /\
  (concat (foreground io) = [] ->
   forall io', step g (RecvTrigger io') w' = None) /\
  (forall counts io',
     run g (map Inc counts ++ [RecvTrigger io']) w' <> None <->
     anyReach (concat (foreground io) ++ counts) (afterRecv (store w)) = true).
Proof.
  intros Hslot Hw Hstep E Htrig.
  rewrite step_RecvTrigger in Hstep.
  destruct (collector w) eqn:Hcol; [|discriminate].
  destruct (Nat.eqb_spec (collectGarbageTrigger (store w)) 0) as [|Hpos];
    [discriminate|].
  cbv zeta in Hstep. unfold collectGarbageRun in Hstep.
  rewrite E, Hw, commitPhase_fails in Hstep. cbn [fst snd] in Hstep.
  injection Hstep as <-. cbn [store collector].
  pose proof (iteratePhase_store g (gcTarget g (store w)) io (afterRecv (store w)))
    as Hpre.
  rewrite E in Hpre. cbn [fst] in Hpre.
  assert (H0 : collectGarbageTrigger (afterRecv (store w)) = 0%nat).
  { unfold afterRecv, Chan.slots in *. cbn. lia. }
  assert (Hpend : pending pre <->
                  anyReach (concat (foreground io)) (afterRecv (store w)) = true).
  { rewrite Hpre. apply incAll_pending_iff, H0. }
  split; [reflexivity|]. split; [reflexivity|]. split; [exact Hpre|].
  split; [exact Hpend|]. split.
  - intros Hq io'. rewrite Hq in Hpend. cbn [anyReach] in Hpend.
    destruct (step g (RecvTrigger io') _) eqn:Es; [|reflexivity].
    assert (Hen : step g (RecvTrigger io')
                    {| store := pre; collector := Idle;
                       reports := reports w ++
                         [{| logged := (if err then ["localstore collect garbage"%string]
                                        else [])
                               ++ ["localstore collect garbage write batch"%string];
                             written := batch l; committed := false;
                             hooked := collectedCount l |}] |} <> None)
      by congruence.
    apply step_RecvTrigger_enabled in Hen. destruct Hen as [_ Hp].
    apply Hpend in Hp. discriminate.
  - intros counts io'. rewrite run_app, run_incs. cbn [run store collector reports].
    match goal with
    | |- match step g ?e ?x with _ => _ end <> None <-> _ =>
        assert (Hs : match step g e x with Some w' => Some w' | None => None end <> None
                     <-> step g e x <> None)
          by (destruct (step g e x); split; congruence);
        rewrite Hs; clear Hs
    end.
    rewrite step_RecvTrigger_enabled. cbn [store collector].
    rewrite Hpre, <- incAll_app, incAll_pending_iff by exact H0. tauto.
Qed.

Lemma failed_capped_run_waits_for_increment_witness :
  let g := {| gcTargetRatio := Float64.c0_9; gcBatchSize := 3 |} in
  let io := {| foreground := []; iterateFailsAt := None; writeBatchFails := true |} in
  exists w',
    step g (RecvTrigger io) (startWorld (sampleDB 100 200 6 1)) = Some w' /\
    gcSize (store w') = 200 /\
    step g (RecvTrigger quiet) w' = None /\
    run g [Inc 1; RecvTrigger quiet] w' <> None.
Proof.
  pose (g := {| gcTargetRatio := Float64.c0_9; gcBatchSize := 3 |}).
  pose (io := {| foreground := []; iterateFailsAt := None; writeBatchFails := true |}).
  pose (w := startWorld (sampleDB 100 200 6 1)).
  cbv zeta. fold g io w.
  destruct (step g (RecvTrigger io) w) as [w'|] eqn:Es;
    [|vm_compute in Es; discriminate].
  destruct (iteratePhase g (gcTarget g (store w)) io (afterRecv (store w)))
    as [[pre l] err] eqn:E.
  assert (Htrig : triggerNextIteration l = true).
  { vm_compute in E. injection E as _ <- _. reflexivity. }
  assert (Hslot : (collectGarbageTrigger (store w) <= Chan.slots)%nat)
    by (vm_compute; lia).
  destruct (failed_capped_run_waits_for_increment g io w w' pre l err
              Hslot eq_refl Es E Htrig) as (_ & _ & Hst & _ & Hnone & Hrun).
  exists w'. split; [reflexivity|]. split; [rewrite Hst; reflexivity|].
  split; [apply Hnone; reflexivity|].
  apply (Hrun [1] quiet). reflexivity.
Defined.

Lemma incAll_allReach cs :
  forall db,
    (collectGarbageTrigger db <= Chan.slots)%nat ->
    allReach cs db = true ->
    collectGarbageTrigger (incAll cs db) =
    match cs with [] => collectGarbageTrigger db | _ => Chan.slots end.
Proof.
  induction cs as [|c cs IH]; intros db Hs Hr; [reflexivity|].
  cbn [allReach] in Hr. apply andb_true_iff in Hr. destruct Hr as [Hc Hr].
  cbn [incAll fold_left]. fold (incAll cs (incGCSize c db)).
  assert (Ht : collectGarbageTrigger (incGCSize c db) = Chan.slots).
  { rewrite incGCSize_trigger, Hc. apply trySend_le, Hs. }
  rewrite IH; [|rewrite Ht; lia|exact Hr].
  destruct cs; [exact Ht|reflexivity].
Qed.

(** C6, as stated, fails: seven admissions of one item each, all returning
    a value at or above the capacity 100, leave one signal; with a cap of 3
    the run they start collects 3 entries, hits the cap and re-arms the
    trigger, so a second run follows: two runs for the one burst. *)
Lemma onePassPerBurst_fails_when_run_rearms :
  let g := {| gcTargetRatio := Float64.c0_9; gcBatchSize := 3 |} in
  let counts := [1; 1; 1; 1; 1; 1; 1] in
  let w := startWorld (sampleDB 100 99 200 0) in
  (counts <> [] /\
   (collectGarbageTrigger (store w) <= Chan.slots)%nat /\
   collector w = Idle /\
   allReach counts (store w) = true) /\
  option_map (fun w' => map hooked (reports w'))
    (run g (map Inc counts ++ [RecvTrigger quiet; RecvTrigger quiet]) w)
    = Some [3; 3] /\
  ~ onePassPerBurst g counts w.
Proof.
  cbv zeta. split; [|split].
  - split; [discriminate|]. split; [cbn; unfold Chan.slots; lia|].
    split; reflexivity.
  - vm_compute. reflexivity.
  - intros (w1 & Hrun & _ & _ & Hnone).
    specialize (Hnone quiet quiet).
    vm_compute in Hrun. injection Hrun as <-.
    vm_compute in Hnone. discriminate.
Qed.

(** C6, amended: requesting collection never blocks and coalesces.  After
    any non-empty sequence of [incGCSize] calls that each return a value at
    or above the capacity, made while the collector waits, the trigger
    channel holds exactly one signal.  The collector's receive takes it and
    starts one run, on a store whose slot is empty again, and that one run
    is all the sequence causes: a second run can start after it exactly
    when an increment landing during the run reached the capacity, or the
    run itself re-armed the trigger, that is, its commit succeeded and it
    had hit the cap or left the accountant at or above the capacity. *)
Theorem requests_start_exactly_one_run g counts w :
  counts <> [] ->
  (collectGarbageTrigger (store w) <= Chan.slots)%nat ->
  collector w = Idle ->
  allReach counts (store w) = true ->
  exists w1,
    run g (map Inc counts) w = Some w1 /\
    reports w1 = reports w /\
    collectGarbageTrigger (store w1) = 1%nat /\
    collectGarbageTrigger (afterRecv (store w1)) = 0%nat /\
    forall io,
    exists w2 r pre l err,
      step g (RecvTrigger io) w1 = Some w2 /\
      collector w2 = Idle /\
      reports w2 = reports w ++ [r] /\
      collectGarbageRun g (gcTarget g (store w)) io (afterRecv (store w1))
        = (store w2, r) /\
      iteratePhase g (gcTarget g (store w)) io (afterRecv (store w1))
        = (pre, l, err) /\
      (forall io',
         step g (RecvTrigger io') w2 <> None <->
         anyReach (concat (foreground io)) (afterRecv (store w1)) = true \/
         (writeBatchFails io = false /\
          (triggerNextIteration l = true \/
           capacity (store w) <= Int64.sub (gcSize pre) (collectedCount l)))).
Proof.
  intros Hne Hs Hidle Hr. rewrite run_incs. eexists. split; [reflexivity|].
  cbn [store reports collector].
  pose proof (incAll_allReach counts (store w) Hs Hr) as Ht.
  destruct counts as [|c0 cs]; [congruence|]. clear Hne.
  change Chan.slots with 1%nat in Ht.
  set (db1 := incAll (c0 :: cs) (store w)) in *.
  assert (H0 : collectGarbageTrigger (afterRecv db1) = 0%nat).
  { unfold afterRecv. cbn [collectGarbageTrigger with_trigger]. rewrite Ht.
    reflexivity. }
  assert (Hk : capacity db1 = capacity (store w)) by apply incAll_capacity.
  split; [reflexivity|]. split; [exact Ht|]. split; [exact H0|].
  intros io.
  rewrite step_RecvTrigger. cbn [store collector reports]. rewrite Hidle.
  destruct (Nat.eqb_spec (collectGarbageTrigger db1) 0) as [Hz|_]; [lia|].
  assert (HT : gcTarget g db1 = gcTarget g (store w))
    by (unfold gcTarget; rewrite Hk; reflexivity).
  cbv zeta. rewrite HT.
  set (target := gcTarget g (store w)).
  pose proof (iteratePhase_store g target io (afterRecv db1)) as Hpre.
  destruct (iteratePhase g target io (afterRecv db1)) as [[pre l] err] eqn:E.
  cbn [fst] in Hpre.
  assert (Hres : collectGarbageRun g target io (afterRecv db1)
                 = commitPhase (writeBatchFails io) l err pre).
  { unfold collectGarbageRun. rewrite E. reflexivity. }
  assert (Hpp : pending pre <->
                anyReach (concat (foreground io)) (afterRecv db1) = true).
  { rewrite Hpre. apply incAll_pending_iff, H0. }
  assert (Hkp : capacity pre = capacity (store w)).
  { rewrite Hpre, incAll_capacity. exact Hk. }
  eexists _, _, pre, l, err.
  split; [reflexivity|]. cbn [store collector reports].
  split; [reflexivity|]. split; [reflexivity|].
  split; [apply surjective_pairing|]. split; [reflexivity|].
  intros io'. rewrite step_RecvTrigger_enabled. cbn [store collector].
  rewrite Hres, <- Hpp.
  destruct (writeBatchFails io).
  - rewrite commitPhase_fails. cbn [fst].
    split; [intros [_ H]; left; exact H|].
    intros [H|[H _]]; [split; [reflexivity|exact H]|discriminate].
  - unfold pending at 1. rewrite commitPhase_trigger, Hkp. cbv zeta.
    unfold pending.
    destruct (triggerNextIteration l).
    + split; [intros _; right; split; [reflexivity|left; reflexivity]|].
      intros _. split; [reflexivity|apply trySend_nonzero].
    + destruct (Z.leb_spec (capacity (store w))
                  (Int64.sub (gcSize pre) (collectedCount l))) as [Hle|Hgt].
      * split; [intros _; right; split; [reflexivity|right; exact Hle]|].
        intros _. split; [reflexivity|apply trySend_nonzero].
      * split; [intros [_ H]; left; exact H|].
        intros [H|[_ [H|H]]]; [split; [reflexivity|exact H]|discriminate|lia].
Qed.

Lemma requests_start_exactly_one_run_witness :
  exists w1 w2 r,
    run defaults [Inc 1; Inc 1; Inc 1] (startWorld (sampleDB 100 99 3 0)) = Some w1 /\
    collectGarbageTrigger (store w1) = 1%nat /\
    step defaults (RecvTrigger quiet) w1 = Some w2 /\
    reports w2 = [r] /\
    step defaults (RecvTrigger quiet) w2 = None.
Proof.
  destruct (requests_start_exactly_one_run defaults [1; 1; 1]
              (startWorld (sampleDB 100 99 3 0)))
    as (w1 & Hrun & _ & Ht & _ & Hone).
  - discriminate.
  - cbn. unfold Chan.slots. lia.
  - reflexivity.
  - reflexivity.
  - destruct (Hone quiet) as (w2 & r & pre & l & err & Hs & _ & Hrep & _ & E & Hnext).
    exists w1, w2, r. split; [exact Hrun|]. split; [exact Ht|].
    split; [exact Hs|]. split; [exact Hrep|].
    destruct (step defaults (RecvTrigger quiet) w2) as [w3|] eqn:E3; [|reflexivity].
    exfalso.
    assert (Hen : step defaults (RecvTrigger quiet) w2 <> None) by congruence.
    apply Hnext in Hen.
    cbn [map] in Hrun. vm_compute in Hrun. injection Hrun as <-.
    vm_compute in E. injection E as <- <- _.
    destruct Hen as [H|[_ [H|H]]]; vm_compute in H;
      [discriminate|discriminate|apply H; reflexivity].
Defined.

(** ** The accountant over whole executions *)

Lemma sumZ_app xs ys : sumZ (xs ++ ys) = sumZ xs + sumZ ys.
Proof.
  unfold sumZ. induction xs as [|x xs IH]; cbn [app fold_right]; [reflexivity|].
  rewrite IH. lia.
Qed.

Lemma sumZ_nonneg xs : Forall (fun c => 0 < c) xs -> 0 <= sumZ xs.
Proof. unfold sumZ. induction 1; cbn [fold_right]; lia. Qed.

Lemma incAll_gcSize cs :
  forall db,
    Forall (fun c => 0 < c) cs ->
    0 <= gcSize db ->
    gcSize db + sumZ cs <= Int64.max_int ->
    gcSize (incAll cs db) = gcSize db + sumZ cs.
Proof.
  induction cs as [|c cs IH]; intros db Hp H0 Hm; cbn [incAll fold_left];
    unfold sumZ in Hm |- *; cbn [fold_right] in Hm |- *.
  - lia.
  - inversion Hp as [|? ? Hc Hcs]; subst.
    fold (incAll cs (incGCSize c db)). fold (sumZ cs) in *.
    pose proof (sumZ_nonneg cs Hcs) as Hn.
    assert (Hg : gcSize (incGCSize c db) = gcSize db + c).
    { rewrite incGCSize_gcSize. unfold Int64.add. apply wrap64_id. int64_lia. }
    rewrite IH; auto; rewrite Hg; lia.
Qed.

Lemma Forall_hd_tl (P : Z -> Prop) (fg : list (list Z)) :
  Forall P (concat fg) -> Forall P (hd [] fg) /\ Forall P (concat (tl fg)).
Proof.
  rewrite (concat_hd_tl fg). intros H. apply Forall_app in H. exact H.
Qed.

Section Accounting.

Variables (g : Globals) (target : Z).
Hypothesis Hcap : Int64.in_range (gcBatchSize g).
Hypothesis Htar : 0 <= target.

Lemma IterateAll_bound :
  forall entries failAt fg db l,
    iterInv g l ->
    collectedCount l <= gcSize db ->
    Forall (fun c => 0 < c) (concat fg) ->
    gcSize db + sumZ (concat fg) <= Int64.max_int ->
    let '(db', l', _, late) := IterateAll (gcVisit g target) entries failAt fg db l in
    gcSize db' + sumZ (concat late) = gcSize db + sumZ (concat fg) /\
    0 <= collectedCount l' <= gcSize db' /\
    Forall (fun c => 0 < c) (concat late).
Proof.
  induction entries as [|it rest IH];
    intros failAt fg db l Hinv Hle Hp Hm; pose proof Hinv as (Hc & _ & _).
  - destruct failAt as [[|k]|]; cbn; (split; [reflexivity|split; [lia|exact Hp]]).
  - destruct (first_entry_fails_or_not failAt) as [->|Hf].
    { cbn. split; [reflexivity|split; [lia|exact Hp]]. }
    rewrite (IterateAll_cons _ it rest failAt fg db l Hf).
    destruct (Forall_hd_tl _ fg Hp) as [Hph Hpt].
    pose proof (sumZ_nonneg _ Hph) as Hnh. pose proof (sumZ_nonneg _ Hpt) as Hnt.
    assert (Hsum : sumZ (concat fg) = sumZ (hd [] fg) + sumZ (concat (tl fg))).
    { rewrite (concat_hd_tl fg) at 1. apply sumZ_app. }
    set (cur := incAll (hd [] fg) db).
    assert (Hcur : gcSize cur = gcSize db + sumZ (hd [] fg)).
    { apply incAll_gcSize; auto; lia. }
    assert (Hd : Int64.sub (gcSize cur) (collectedCount l)
                 = gcSize cur - collectedCount l).
    { unfold Int64.sub. apply wrap64_id. int64_lia. }
    destruct (gcVisit_cases g target cur l it Hinv)
      as [(_ & ->) | [(Hgt & Hb & ->) | (Hgt & Hb & ->)]].
    + split; [lia|]. split; [lia|exact Hpt].
    + cbn [collectedCount]. split; [lia|]. split; [lia|exact Hpt].
    + set (l1 := {| batch := batch l ++ deletesOf cur it;
                    triggerNextIteration := false;
                    collectedCount := collectedCount l + 1 |}).
      assert (Hinv1 : iterInv g l1).
      { unfold iterInv; cbn. repeat split; int64_lia. }
      specialize (IH (option_map Nat.pred failAt) (tl fg) cur l1 Hinv1).
      destruct (IterateAll (gcVisit g target) rest _ (tl fg) cur l1)
        as [[[db' l'] err] late].
      destruct IH as (H1 & H2 & H3); [cbn; lia|exact Hpt|lia|].
      split; [lia|]. split; [exact H2|exact H3].
Qed.

Lemma run_accounting io db :
  0 <= gcSize db ->
  Forall (fun c => 0 < c) (concat (foreground io)) ->
  gcSize db + sumZ (concat (foreground io)) <= Int64.max_int ->
  let '(post, r) := collectGarbageRun g target io db in
  gcSize post = gcSize db + sumZ (concat (foreground io))
                - (if committed r then hooked r else 0) /\
  0 <= gcSize post <= gcSize db + sumZ (concat (foreground io)) /\
  capacity post = capacity db.
Proof.
  intros H0 Hp Hm. unfold collectGarbageRun, iteratePhase.
  pose proof (IterateAll_bound (shed db gcIndex)
                (iterateFailsAt io) (foreground io) db newLocals
                (iterInv_new g) H0 Hp Hm) as H.
  pose proof (IterateAll_store (gcVisit g target) (shed db gcIndex)
                (iterateFailsAt io) (foreground io) db newLocals) as Hst.
  destruct (IterateAll _ _ _ _ _ _) as [[[db' l] err] late].
  destruct H as (Hsum & Hc & Hpl).
  pose proof (sumZ_nonneg _ Hpl) as Hnl.
  assert (Hpre : gcSize (incAll (concat late) db') = gcSize db' + sumZ (concat late)).
  { apply incAll_gcSize; auto; lia. }
  assert (Hcap' : capacity (incAll (concat late) db') = capacity db).
  { rewrite Hst. apply incAll_capacity. }
  destruct (writeBatchFails io).
  - rewrite commitPhase_fails. cbn [committed]. lia.
  - pose proof (commitPhase_gcSize l err (incAll (concat late) db')) as Hg.
    assert (Hk : capacity (fst (commitPhase false l err (incAll (concat late) db')))
                 = capacity db).
    { rewrite commitPhase_succeeds. cbn [fst].
      destruct (triggerNextIteration l); cbn [capacity with_trigger];
        rewrite incGCSize_capacity; exact Hcap'. }
    assert (Hr : snd (commitPhase false l err (incAll (concat late) db')) =
                 {| logged := if err then ["localstore collect garbage"%string] else [];
                    written := batch l; committed := true;
                    hooked := collectedCount l |}).
    { rewrite commitPhase_succeeds. reflexivity. }
    destruct (commitPhase false l err _) as [post r]. cbn [fst snd] in *.
    subst r. cbn [committed hooked].
    assert (Hs : Int64.sub (gcSize (incAll (concat late) db')) (collectedCount l)
                 = gcSize (incAll (concat late) db') - collectedCount l).
    { unfold Int64.sub. apply wrap64_id. int64_lia. }
    rewrite Hg, Hs. lia.
Qed.

End Accounting.

Lemma gcTarget_capacity g db db' :
  capacity db' = capacity db -> gcTarget g db' = gcTarget g db.
Proof. unfold gcTarget. intros ->. reflexivity. Qed.

Lemma evicted_snoc rs r :
  evicted (rs ++ [r]) = evicted rs + (if committed r then hooked r else 0).
Proof. unfold evicted. rewrite map_app, sumZ_app. cbn. lia. Qed.

Lemma run_invariant g :
  Int64.in_range (gcBatchSize g) ->
  forall evs w w' A,
    0 <= gcTarget g (store w) ->
    0 <= gcSize (store w) ->
    gcSize (store w) = A - evicted (reports w) ->
    admissionsOnly evs ->
    gcSize (store w) + admitted evs <= Int64.max_int ->
    run g evs w = Some w' ->
    gcSize (store w') = A + admitted evs - evicted (reports w') /\
    0 <= gcSize (store w').
Proof.
  intros Hcap. unfold admissionsOnly, admitted.
  induction evs as [|ev evs IH]; intros w w' A Htar H0 HA Hp Hm Hrun.
  - cbn in Hrun. injection Hrun as <-. cbn. lia.
  - cbn [run] in Hrun. cbn [flat_map] in Hp, Hm |- *.
    apply Forall_app in Hp. destruct Hp as [Hpe Hps].
    rewrite sumZ_app in Hm |- *.
    pose proof (sumZ_nonneg _ Hpe) as Hne. pose proof (sumZ_nonneg _ Hps) as Hns.
    destruct (step g ev w) as [w1|] eqn:Es; [|discriminate].
    assert (H1 : capacity (store w1) = capacity (store w) /\
                 gcSize (store w1) = A + sumZ (incrementsOf ev) - evicted (reports w1) /\
                 0 <= gcSize (store w1) <= gcSize (store w) + sumZ (incrementsOf ev)).
    { destruct ev as [c|io| |].
      - cbn in Es. injection Es as <-. cbn [store reports incrementsOf] in *.
        rewrite incGCSize_capacity. split; [reflexivity|].
        assert (Hg : gcSize (incGCSize c (store w)) = gcSize (store w) + c).
        { rewrite incGCSize_gcSize. unfold Int64.add. apply wrap64_id.
          unfold sumZ in *; cbn [fold_right] in *. int64_lia. }
        rewrite Hg. unfold sumZ in *; cbn [fold_right] in *. lia.
      - rewrite step_RecvTrigger in Es.
        destruct (collector w); [|discriminate].
        destruct (Nat.eqb _ 0); [discriminate|]. cbv zeta in Es.
        pose proof (run_accounting g (gcTarget g (store w)) Hcap Htar io
                      (afterRecv (store w)) H0 Hpe) as Hacc.
        destruct (collectGarbageRun _ _ _ _) as [post r].
        injection Es as <-. cbn [store reports fst snd incrementsOf] in *.
        change (gcSize (afterRecv (store w))) with (gcSize (store w)) in Hacc.
        destruct Hacc as (Hg & Hpos & Hk); [lia|].
        rewrite evicted_snoc. split; [exact Hk|]. split; [lia|exact Hpos].
      - cbn in Es. injection Es as <-. cbn [store reports incrementsOf] in *.
        unfold sumZ; cbn. split; [reflexivity|]. lia.
      - cbn in Es. destruct (collector w); [|discriminate].
        destruct (close (store w)); [|discriminate].
        injection Es as <-. cbn [store reports incrementsOf] in *.
        unfold sumZ; cbn. split; [reflexivity|]. lia. }
    destruct H1 as (Hk & Hg & Hpos).
    destruct (IH w1 w' (A + sumZ (incrementsOf ev))) as [Hf Hfp];
      [ rewrite (gcTarget_capacity g (store w) (store w1) Hk); exact Htar
      | lia | exact Hg | exact Hps | lia | exact Hrun | ].
    split; [lia|exact Hfp].
Qed.

(** C8: start from an accountant at zero; let foreground goroutines admit
    items (positive increments, before, between and during runs) and let
    the collector run any number of times, commits failing or not.  As long
    as the number of admitted items fits an [int64] and the target is not
    negative, after every prefix of the execution the accountant equals the
    number of items admitted so far minus the total [collectedCount] of the
    runs whose commit succeeded, and it is never negative. *)
Theorem accountant_is_admitted_minus_evicted g db evs :
  Int64.in_range (gcBatchSize g) ->
  0 <= gcTarget g db ->
  gcSize db = 0 ->
  admissionsOnly evs ->
  admitted evs <= Int64.max_int ->
  forall done todo w,
    evs = done ++ todo ->
    run g done (startWorld db) = Some w ->
    gcSize (store w) = admitted done - evicted (reports w) /\
    0 <= gcSize (store w).
Proof.
  intros Hcap Htar Hz Hp Hm done todo w -> Hrun.
  unfold admissionsOnly, admitted in Hp, Hm.
  rewrite flat_map_app in Hp, Hm. apply Forall_app in Hp. destruct Hp as [Hpd Hpt].
  rewrite sumZ_app in Hm. pose proof (sumZ_nonneg _ Hpt) as Hnt.
  destruct (run_invariant g Hcap done (startWorld db) w 0) as [H1 H2];
    cbn [store reports startWorld]; try rewrite Hz; auto; try reflexivity.
  unfold admitted. lia.
Qed.

Lemma accountant_is_admitted_minus_evicted_witness :
  exists w,
    run defaults [Inc 1; Inc 1; Inc 1; RecvTrigger quiet]
      (startWorld (sampleDB 2 0 3 0)) = Some w /\
    gcSize (store w) = 3 - 2 /\
    evicted (reports w) = 2.
Proof.
  destruct (run defaults [Inc 1; Inc 1; Inc 1; RecvTrigger quiet]
              (startWorld (sampleDB 2 0 3 0))) as [w|] eqn:E;
    [|vm_compute in E; discriminate].
  assert (Hcap : Int64.in_range (gcBatchSize defaults))
    by (vm_compute; split; congruence).
  assert (Htar : 0 <= gcTarget defaults (sampleDB 2 0 3 0))
    by (vm_compute; congruence).
  assert (Hadm : admissionsOnly [Inc 1; Inc 1; Inc 1; RecvTrigger quiet]).
  { unfold admissionsOnly. cbn. repeat constructor. }
  assert (Hfit : admitted [Inc 1; Inc 1; Inc 1; RecvTrigger quiet] <= Int64.max_int)
    by (vm_compute; congruence).
  destruct (accountant_is_admitted_minus_evicted defaults (sampleDB 2 0 3 0)
              [Inc 1; Inc 1; Inc 1; RecvTrigger quiet] Hcap Htar eq_refl Hadm Hfit
              [Inc 1; Inc 1; Inc 1; RecvTrigger quiet] [] w eq_refl E) as [Hg _].
  assert (He : evicted (reports w) = 2).
  { vm_compute in E. injection E as <-. reflexivity. }
  exists w. split; [reflexivity|]. split; [|exact He].
  rewrite Hg, He. reflexivity.
Defined.

(** ** Draining to the target *)

Lemma IterateAll_quiet g target :
  Int64.in_range (gcBatchSize g) ->
  forall entries db l,
    iterInv g l ->
    0 <= gcSize db <= Int64.max_int ->
    exists l',
      IterateAll (gcVisit g target) entries None [] db l = (db, l', false, []) /\
      (gcSize db - collectedCount l' <= target \/
       triggerNextIteration l' = true \/
       collectedCount l' = collectedCount l + Z.of_nat (List.length entries)).
Proof.
  intros Hcap. induction entries as [|it rest IH]; intros db l Hinv Hg.
  - exists l. split; [reflexivity|]. right. right. cbn. lia.
  - cbn [IterateAll hd tl option_map incAll fold_left].
    pose proof Hinv as (Hc & _ & _).
    assert (Hd : Int64.sub (gcSize db) (collectedCount l)
                 = gcSize db - collectedCount l).
    { unfold Int64.sub. apply wrap64_id. int64_lia. }
    destruct (gcVisit_cases g target db l it Hinv)
      as [(Hle & ->) | [(Hgt & Hb & ->) | (Hgt & Hb & ->)]].
    + exists l. split; [reflexivity|]. left. lia.
    + eexists. split; [reflexivity|]. right. left. reflexivity.
    + set (l1 := {| batch := batch l ++ deletesOf db it;
                    triggerNextIteration := false;
                    collectedCount := collectedCount l + 1 |}).
      assert (Hinv1 : iterInv g l1).
      { unfold iterInv; cbn. repeat split; int64_lia. }
      destruct (IH db l1 Hinv1 Hg) as (l' & -> & Hcases).
      exists l'. split; [reflexivity|].
      destruct Hcases as [H|[H|H]]; [left; exact H|right; left; exact H|].
      right. right. rewrite H. cbn [collectedCount l1 List.length]. lia.
Qed.

Lemma gcTarget_in_range g db : Int64.in_range (gcTarget g db).
Proof.
  unfold gcTarget, Float64.to_int64.
  destruct (0 <=? _); apply wrap64_in_range.
Qed.

(** C2, as stated, fails: let the index iteration return an error after
    five entries, with capacity 100 and 100 items.  The run commits the five
    queued deletes successfully and leaves the accountant at 95, above the
    target 90; it has collected 5 items, not [gcBatchSize], and no signal is
    pending afterwards. *)
Lemma reachesTargetOrCap_fails_on_iteration_error :
  let io := {| foreground := []; iterateFailsAt := Some 5%nat;
               writeBatchFails := false |} in
  let '(post, r) :=
    collectGarbageRun defaults (gcTarget defaults (sampleDB 100 100 100 0)) io
      (sampleDB 100 100 100 0) in
  (committed r = true /\ gcSize post = 95 /\ hooked r = 5 /\
   collectGarbageTrigger post = 0%nat) /\
  ~ reachesTargetOrCap defaults io (sampleDB 100 100 100 0).
Proof.
  vm_compute. split; [repeat split; reflexivity|].
  intros H. destruct (H eq_refl) as [H1|[H1 _]]; [apply H1; reflexivity|discriminate].
Qed.

(** C2, amended: take a run whose commit succeeds, whose index iteration
    returns no error, during which no other goroutine changes the
    accountant, and whose eviction-order index holds at least
    accountant - target entries (per-pass cap positive, accountant not
    negative).  After it the accountant is the old value minus
    [collectedCount], and either it is at most the target or the run
    collected exactly [gcBatchSize] items and a signal is pending.  In
    particular with capacity 100, cap 1000 and 150 items the target is 90,
    one run collects the 60 lowest entries, leaves the accountant at 90 and
    leaves the trigger slot empty. *)
Theorem quiet_run_reaches_target_or_cap g io db :
  0 < gcBatchSize g <= Int64.max_int ->
  0 <= gcSize db <= Int64.max_int ->
  foreground io = [] ->
  iterateFailsAt io = None ->
  writeBatchFails io = false ->
  gcSize db - gcTarget g db <= Z.of_nat (List.length (shed db gcIndex)) ->
  reachesTargetOrCap g io db /\
  (let '(post, r) := collectGarbageRun g (gcTarget g db) io db in
   committed r = true /\ gcSize post = gcSize db - hooked r) /\
  (exists w' r,
     step defaults (RecvTrigger quiet) (startWorld (sampleDB 100 150 150 1)) = Some w' /\
     reports w' = [r] /\
     gcTarget defaults (sampleDB 100 150 150 1) = 90 /\
     hooked r = 60 /\ committed r = true /\
     gcSize (store w') = 90 /\
     collectGarbageTrigger (store w') = 0%nat /\
     shed (store w') gcIndex = skipn 60 (items 150)).
Proof.
  intros Hcap Hg Hfg Hfail Hw Hlen.
  assert (Hr : Int64.in_range (gcBatchSize g)) by int64_lia.
  assert (Hmain :
    let '(post, r) := collectGarbageRun g (gcTarget g db) io db in
    committed r = true /\ gcSize post = gcSize db - hooked r /\
    (gcSize post <= gcTarget g db \/ hooked r = gcBatchSize g /\ pending post)).
  { unfold collectGarbageRun, iteratePhase. rewrite Hfg, Hfail, Hw.
    destruct (IterateAll_quiet g (gcTarget g db) Hr (shed db gcIndex) db newLocals
                (iterInv_new g) Hg) as (l & E & Hcases).
    destruct (IterateAll_spec g (gcTarget g db) Hr (shed db gcIndex) None [] db
                newLocals (iterInv_new g))
      as (db' & l' & err & late & n & E' & _ & _ & _ & Hc & Ht & _).
    rewrite E in E' |- *. injection E' as <- <- <- <-.
    cbn [concat incAll fold_left].
    pose proof (commitPhase_gcSize l false db) as Hgs.
    pose proof (commitPhase_trigger l false db) as Hts.
    assert (Hrep : snd (commitPhase false l false db) =
                   {| logged := []; written := batch l; committed := true;
                      hooked := collectedCount l |}).
    { rewrite commitPhase_succeeds. reflexivity. }
    destruct (commitPhase false l false db) as [post r]. cbn [fst snd] in *.
    subst r. cbn [committed hooked].
    assert (Hs : Int64.sub (gcSize db) (collectedCount l)
                 = gcSize db - collectedCount l).
    { unfold Int64.sub. apply wrap64_id. int64_lia. }
    rewrite Hs in Hgs. split; [reflexivity|]. split; [exact Hgs|].
    destruct Hcases as [H|[H|H]].
    - left. lia.
    - right. destruct (Ht H) as (_ & _ & Heq). split; [apply Heq; lia|].
      unfold pending. rewrite Hts, H. cbv zeta. apply trySend_nonzero.
    - left. cbn [collectedCount newLocals] in H. lia. }
  split; [|split].
  - unfold reachesTargetOrCap. cbv zeta.
    destruct (collectGarbageRun g (gcTarget g db) io db) as [post r].
    intros _. apply Hmain.
  - destruct (collectGarbageRun g (gcTarget g db) io db) as [post r].
    split; apply Hmain.
  - eexists _, _. split; [vm_compute; reflexivity|].
    repeat split; vm_compute; reflexivity.
Qed.

Lemma quiet_run_reaches_target_or_cap_witness :
  reachesTargetOrCap defaults quiet (sampleDB 100 150 150 0) /\
  (let '(post, r) :=
     collectGarbageRun defaults (gcTarget defaults (sampleDB 100 150 150 0)) quiet
       (sampleDB 100 150 150 0) in
   committed r = true /\ gcSize post = 150 - hooked r).
Proof.
  assert (Hcap : 0 < gcBatchSize defaults <= Int64.max_int)
    by (vm_compute; split; congruence).
  assert (Hg : 0 <= gcSize (sampleDB 100 150 150 0) <= Int64.max_int)
    by (vm_compute; split; congruence).
  assert (Hlen : gcSize (sampleDB 100 150 150 0) - gcTarget defaults (sampleDB 100 150 150 0)
                 <= Z.of_nat (List.length (shed (sampleDB 100 150 150 0) gcIndex)))
    by (vm_compute; congruence).
  destruct (quiet_run_reaches_target_or_cap defaults quiet (sampleDB 100 150 150 0)
              Hcap Hg eq_refl eq_refl eq_refl Hlen) as (H1 & H2 & _).
  split; [exact H1|exact H2].
Defined.

(** ** The target *)

Lemma exact_product c :
  0 <= c <= productBound ->
  (c * sig09) / 2 ^ 53 = c * 9 / 10 /\
  10 * ((c * sig09) mod 2 ^ 53) <= 9 * 2 ^ 53 + 2 * c.
Proof.
  intros Hc. unfold sig09, productBound in *.
  pose proof (Z.div_mod (c * 9) 10 ltac:(lia)) as Hd.
  pose proof (Z.mod_pos_bound (c * 9) 10 ltac:(lia)) as Hm.
  set (F := c * 9 / 10) in *. set (rho := (c * 9) mod 10) in *.
  change (2 ^ 53) with 9007199254740992.
  assert (Hq : (c * 8106479329266893) / 9007199254740992 = F).
  { symmetry. apply (Z.div_unique _ _ F (c * 8106479329266893 - F * 9007199254740992)); lia. }
  split; [exact Hq|].
  rewrite Z.mod_eq by lia. rewrite Hq. lia.
Qed.

Lemma round_up_harmless x k F :
  1 <= k <= 50 ->
  0 <= x ->
  x / 2 ^ 53 = F ->
  10 * (x mod 2 ^ 53) <= 9 * 2 ^ 53 + 2 * productBound ->
  2 ^ (k - 1) <= x mod 2 ^ k ->
  (x / 2 ^ k + 1) / 2 ^ (53 - k) = F.
Proof.
  intros Hk Hx HF HR Hr.
  set (P := 2 ^ k) in *. set (S := 2 ^ (53 - k)).
  assert (HP : P * S = 2 ^ 53).
  { unfold P, S. rewrite <- Z.pow_add_r by lia. f_equal. lia. }
  assert (Hh : 2 * 2 ^ (k - 1) = P).
  { unfold P. rewrite <- Z.pow_succ_r by lia. f_equal. lia. }
  assert (HP50 : P <= 2 ^ 50) by (apply Z.pow_le_mono_r; lia).
  assert (HPpos : 0 < P) by (apply Z.pow_pos_nonneg; lia).
  assert (HSpos : 0 < S) by (apply Z.pow_pos_nonneg; lia).
  pose proof (Z.div_mod x P ltac:(lia)) as Hx1.
  pose proof (Z.mod_pos_bound x P HPpos) as Hx2.
  set (q := x / P) in *. set (r := x mod P) in *.
  assert (HqF : q / S = F).
  { unfold q. rewrite Z.div_div by lia. rewrite HP. exact HF. }
  pose proof (Z.div_mod q S ltac:(lia)) as Hq1.
  pose proof (Z.mod_pos_bound q S HSpos) as Hq2.
  rewrite HqF in Hq1. set (t := q mod S) in *.
  assert (HRv : x mod 2 ^ 53 = t * P + r).
  { rewrite Z.mod_eq by lia. rewrite HF. rewrite <- HP. nia. }
  rewrite HRv in HR.
  assert (Ht : t + 1 < S).
  { destruct (Z_lt_ge_dec (t + 1) S) as [|Hge]; [assumption|exfalso].
    assert (t = S - 1) by lia. subst t.
    assert (E : (S - 1) * P = 2 ^ 53 - P) by nia.
    replace (q mod S) with (S - 1) in HR by lia.
    rewrite E in HR. unfold productBound in HR. change (2 ^ 53) with 9007199254740992 in *.
    change (2 ^ 50) with 1125899906842624 in *. lia. }
  symmetry. apply (Z.div_unique _ _ F (t + 1)); lia.
Qed.

Lemma of_int64_exact c : 0 <= c < 2 ^ 53 -> Float64.of_int64 c = Float64.mk c 0.
Proof.
  intros Hc. unfold Float64.of_int64, Float64.round, Float64.bitlen, Float64.prec.
  rewrite Z.abs_eq by lia.
  destruct (Z.eqb_spec c 0) as [->|Hn]; [reflexivity|].
  assert (Hl : Z.log2 c < 53) by (apply Z.log2_lt_pow2; lia).
  destruct (Z.leb_spec (Z.log2 c + 1 - 53) 0); [reflexivity|lia].
Qed.

Lemma target_below_bound c :
  0 <= c <= productBound ->
  Float64.to_int64 (Float64.mul (Float64.of_int64 c) Float64.c0_9) = c * 9 / 10.
Proof.
  intros Hc. pose proof (exact_product c Hc) as [HF HR].
  assert (HB : 10 * ((c * sig09) mod 2 ^ 53) <= 9 * 2 ^ 53 + 2 * productBound) by lia.
  rewrite of_int64_exact by (unfold productBound in Hc; change (2 ^ 53) with 9007199254740992; lia).
  unfold Float64.mul, Float64.c0_9. cbn [Float64.mant Float64.expo].
  fold sig09. change (0 + -53) with (-53).
  assert (Frange : Int64.in_range (c * 9 / 10)).
  { unfold Int64.in_range, Int64.min_int, Int64.max_int, productBound in *.
    pose proof (Z.div_le_upper_bound (c * 9) 10 (2 ^ 62) ltac:(lia)
                  ltac:(change (2 ^ 62) with 4611686018427387904; lia)).
    pose proof (Z.div_pos (c * 9) 10 ltac:(lia) ltac:(lia)).
    change (2 ^ 62) with 4611686018427387904 in *.
    change (2 ^ 63) with 9223372036854775808. lia. }
  destruct (Z.eqb_spec c 0) as [->|Hn]; [reflexivity|].
  assert (Hx : 0 < c * sig09) by (unfold sig09; lia).
  unfold Float64.round, Float64.bitlen, Float64.prec.
  rewrite Z.abs_eq by lia.
  destruct (Z.eqb_spec (c * sig09) 0) as [|_]; [lia|].
  assert (Hlo : 52 <= Z.log2 (c * sig09)).
  { apply Z.log2_le_pow2; [exact Hx|]. unfold sig09.
    change (2 ^ 52) with 4503599627370496. lia. }
  assert (Hhi : Z.log2 (c * sig09) < 103).
  { apply Z.log2_lt_pow2; [exact Hx|]. unfold sig09, productBound in *.
    change (2 ^ 103) with 10141204801825835211973625643008. lia. }
  set (k := Z.log2 (c * sig09) + 1 - 53).
  assert (Hk : 0 <= k <= 50) by (unfold k; lia).
  destruct (Z.leb_spec k 0) as [Hk0|Hk1].
  - unfold Float64.to_int64. cbn [Float64.mant Float64.expo].
    change (0 <=? -53) with false. cbv iota. change (- -53) with 53.
    rewrite Z.quot_div_nonneg by lia. rewrite HF. apply wrap64_id, Frange.
  - rewrite Z.shiftr_div_pow2 by lia.
    rewrite (Z.sgn_pos (c * sig09)) by lia.
    set (q' := if (2 ^ (k - 1) <? (c * sig09) mod 2 ^ k)
                  || (((c * sig09) mod 2 ^ k =? 2 ^ (k - 1)) && Z.odd (c * sig09 / 2 ^ k))
               then c * sig09 / 2 ^ k + 1 else c * sig09 / 2 ^ k).
    unfold Float64.to_int64. cbn [Float64.mant Float64.expo].
    destruct (Z.leb_spec 0 (-53 + k)) as [|_]; [lia|].
    replace (- (-53 + k)) with (53 - k) by lia.
    assert (Hq0 : 0 <= c * sig09 / 2 ^ k).
    { apply Z.div_pos; [lia|]. apply Z.pow_pos_nonneg; lia. }
    assert (Hq : q' / 2 ^ (53 - k) = c * 9 / 10 /\ 0 <= q').
    { unfold q'.
      destruct ((2 ^ (k - 1) <? (c * sig09) mod 2 ^ k)
                || (((c * sig09) mod 2 ^ k =? 2 ^ (k - 1)) && Z.odd (c * sig09 / 2 ^ k)))
               eqn:Hup.
      - split; [|lia]. apply round_up_harmless; try lia; auto.
      - split; [|lia].
        rewrite Z.div_div
          by first [apply Z.pow_pos_nonneg; lia | apply Z.pow_nonzero; lia].
        rewrite <- Z.pow_add_r by lia. replace (k + (53 - k)) with 53 by lia.
        exact HF. }
    destruct Hq as [Hq Hq'0].
    rewrite Z.mul_1_l, Z.quot_div_nonneg; [|lia|apply Z.pow_pos_nonneg; lia].
    rewrite Hq. apply wrap64_id, Frange.
Qed.

Lemma target_threshold c :
  0 <= c < firstInexactCapacity ->
  Float64.to_int64 (Float64.mul (Float64.of_int64 c) Float64.c0_9) = c * 9 / 10.
Proof.
  unfold firstInexactCapacity.
  intros Hc. destruct (Z_le_gt_dec c productBound) as [Hle|Hgt].
  - apply target_below_bound. lia.
  - unfold productBound in Hgt.
    assert (Hcases : c = 1250999896491805 \/ c = 1250999896491806 \/
                     c = 1250999896491807 \/ c = 1250999896491808 \/
                     c = 1250999896491809 \/ c = 1250999896491810) by lia.
    destruct Hcases as [->|[->|[->|[->|[->| ->]]]]]; vm_compute; reflexivity.
Qed.

(** The [Float64] model and the hardware binary64 arithmetic of the kernel
    compute the same target on the sample capacities, and the constant of
    the model is the hardware quotient 9/10. *)
Example float64_model_matches_hardware :
  forallb (fun c => gcTarget defaults (sampleDB c 0 0 0) =? HardFloat.target c)
    samples = true /\
  HardFloat.to_Z (PrimFloat.mul
                    (PrimFloat.div (PrimFloat.of_uint63 9) (PrimFloat.of_uint63 10))
                    (PrimFloat.of_uint63 (Uint63.of_Z (2 ^ 53)))) = sig09.
Proof. split; vm_compute; reflexivity. Qed.

(** C5, as stated, fails: at capacity 1250999896491811 the product computed
    in [float64] is rounded up to 1125899906842630, one more than the
    integer part 1125899906842629 of nine tenths of the capacity. *)
Lemma gcTarget_exceeds_floor_at_threshold :
  0 <= capacity (sampleDB firstInexactCapacity 0 0 0) /\
  gcTarget defaults (sampleDB firstInexactCapacity 0 0 0) = 1125899906842630 /\
  floorNineTenths (capacity (sampleDB firstInexactCapacity 0 0 0)) = 1125899906842629 /\
  gcTarget defaults (sampleDB firstInexactCapacity 0 0 0)
    <> floorNineTenths (capacity (sampleDB firstInexactCapacity 0 0 0)).
Proof.
  split; [vm_compute; congruence|].
  split; [vm_compute; reflexivity|].
  split; [vm_compute; reflexivity|].
  vm_compute. congruence.
Qed.

(** C5, amended: with the ratio 0.9 (the nearest [float64]), [gcTarget]
    returns the integer part of nine tenths of the capacity for every
    capacity from 0 up to, and not including, 1250999896491811; the product
    is computed in [float64], so beyond that the result is the rounded
    product and can differ. *)
Theorem gcTarget_is_floor_below_threshold g db :
  gcTargetRatio g = Float64.c0_9 ->
  0 <= capacity db < firstInexactCapacity ->
  gcTarget g db = floorNineTenths (capacity db).
Proof.
  intros Hr Hc. unfold gcTarget, floorNineTenths. rewrite Hr.
  apply target_threshold. exact Hc.
Qed.

Lemma gcTarget_is_floor_below_threshold_witness :
  gcTarget defaults (sampleDB 100 150 150 0) = 90.
Proof.
  rewrite (gcTarget_is_floor_below_threshold defaults (sampleDB 100 150 150 0) eq_refl).
  - reflexivity.
  - unfold firstInexactCapacity. cbn. lia.
Defined.

(** ** The scenarios of the specification, run on the model *)

(** capacity 100, cap 50, 200 items: three runs leave the accountant at 150,
    100 and 90; the first two re-arm the trigger, the third does not, and a
    fourth receive is not enabled. *)
Example capped_runs_converge :
  let g := {| gcTargetRatio := Float64.c0_9; gcBatchSize := 50 |} in
  let w0 := startWorld (sampleDB 100 200 200 1) in
  let observe (w : option World) :=
    option_map (fun w => (gcSize (store w), collectGarbageTrigger (store w),
                          map hooked (reports w),
                          List.length (shed (store w) gcIndex))) w in
  observe (run g [RecvTrigger quiet] w0) = Some (150, 1%nat, [50], 150%nat) /\
  observe (run g [RecvTrigger quiet; RecvTrigger quiet] w0)
    = Some (100, 1%nat, [50; 50], 100%nat) /\
  observe (run g [RecvTrigger quiet; RecvTrigger quiet; RecvTrigger quiet] w0)
    = Some (90, 0%nat, [50; 50; 10], 90%nat) /\
  run g [RecvTrigger quiet; RecvTrigger quiet; RecvTrigger quiet; RecvTrigger quiet] w0
    = None.
Proof. vm_compute. repeat split; reflexivity. Qed.

(** a run that queued the deletes of 30 entries and whose commit fails: the
    accountant and the indexes are unchanged, the error is logged, the
    collector is idle, and the next run queues the same 30 entries first *)
Example failed_commit_keeps_entries :
  let io := {| foreground := []; iterateFailsAt := None; writeBatchFails := true |} in
  let w0 := startWorld (sampleDB 100 120 120 1) in
  match run defaults [RecvTrigger io; Inc 1; RecvTrigger quiet] w0 with
  | Some w2 =>
      match run defaults [RecvTrigger io] w0, reports w2 with
      | Some w1, [r1; r2] =>
          gcSize (store w1) = 120 /\
          shed (store w1) = shed (store w0) /\
          collector w1 = Idle /\
          reports w1 = [r1] /\
          hooked r1 = 30 /\
          logged r1 = ["localstore collect garbage write batch"%string] /\
          hooked r2 = 31 /\
          firstn (List.length (written r1)) (written r2) = written r1
      | _, _ => False
      end
  | None => False
  end.
Proof. vm_compute. repeat split; reflexivity. Qed.

(** * Further properties of the collector *)

(** ** What every execution keeps *)

Lemma incAll_close cs : forall db, close (incAll cs db) = close db.
Proof.
  induction cs as [|c cs IH]; intros db; cbn; [reflexivity|].
  unfold incAll in IH. rewrite IH. apply incGCSize_close.
Qed.

Lemma commitPhase_frame fails l err db :
  let post := fst (commitPhase fails l err db) in
  capacity post = capacity db /\
  close post = close db /\
  useRetrievalCompositeIndex post = useRetrievalCompositeIndex db /\
  (wfDB db -> wfDB post).
Proof.
  destruct fails.
  - rewrite commitPhase_fails. cbn. auto.
  - rewrite commitPhase_succeeds. cbn [fst].
    set (db0 := with_shed (fold_left deleteEntry (batch l) (shed db)) db).
    assert (Hwf0 : wfDB db -> wfDB db0) by (unfold wfDB; cbn; auto).
    assert (Hwf1 : wfDB db -> wfDB (incGCSize (Int64.neg (collectedCount l)) db0))
      by (intros Hwf; apply incGCSize_wf, Hwf0, Hwf).
    destruct (triggerNextIteration l);
      cbn [capacity close useRetrievalCompositeIndex with_trigger];
      rewrite incGCSize_capacity, incGCSize_close, incGCSize_mode;
      (split; [reflexivity|]; split; [reflexivity|]; split; [reflexivity|]);
      intros Hwf; destruct (Hwf1 Hwf) as (H1 & H2 & H3); [|split; auto].
    unfold wfDB. cbn [capacity gcSize collectGarbageTrigger with_trigger].
    split; [exact H1|]. split; [exact H2|]. apply trySend_bound, H3.
Qed.

Lemma collectGarbageRun_frame g target io db :
  let post := fst (collectGarbageRun g target io db) in
  capacity post = capacity db /\
  close post = close db /\
  useRetrievalCompositeIndex post = useRetrievalCompositeIndex db /\
  (wfDB db -> wfDB post).
Proof.
  unfold collectGarbageRun.
  pose proof (iteratePhase_store g target io db) as Hs.
  destruct (iteratePhase g target io db) as [[pre l] err]. cbn [fst] in Hs.
  pose proof (commitPhase_frame (writeBatchFails io) l err pre) as (H1 & H2 & H3 & H4).
  cbv zeta. rewrite H1, H2, H3. subst pre.
  rewrite incAll_capacity, incAll_close, incAll_mode.
  split; [reflexivity|]. split; [reflexivity|]. split; [reflexivity|].
  intros Hwf. apply H4, incAll_wf, Hwf.
Qed.

Lemma step_frame g ev w w' :
  step g ev w = Some w' ->
  capacity (store w') = capacity (store w) /\
  useRetrievalCompositeIndex (store w') = useRetrievalCompositeIndex (store w) /\
  (wfDB (store w) -> wfDB (store w')) /\
  (close (store w') = close (store w) \/ ev = Shutdown).
Proof.
  destruct ev as [c|io| |]; intros Hs.
  - cbn in Hs. injection Hs as <-. cbn [store].
    rewrite incGCSize_capacity, incGCSize_mode, incGCSize_close.
    split; [reflexivity|]. split; [reflexivity|].
    split; [apply incGCSize_wf|left; reflexivity].
  - rewrite step_RecvTrigger in Hs. destruct (collector w); [|discriminate].
    destruct (Nat.eqb_spec (collectGarbageTrigger (store w)) 0) as [|Hp];
      [discriminate|].
    cbv zeta in Hs. injection Hs as <-. cbn [store].
    pose proof (collectGarbageRun_frame g (gcTarget g (store w)) io
                  (afterRecv (store w))) as (H1 & H2 & H3 & H4).
    cbv zeta in H1, H2, H3, H4. rewrite H1, H2, H3.
    split; [reflexivity|]. split; [reflexivity|].
    split; [|left; reflexivity].
    intros (Hc & Hg & Ht). apply H4.
    unfold wfDB, afterRecv, Chan.slots in *. cbn.
    split; [exact Hc|]. split; [exact Hg|lia].
  - cbn in Hs. injection Hs as <-. cbn [store].
    split; [reflexivity|]. split; [reflexivity|]. split; [auto|right; reflexivity].
  - cbn in Hs. destruct (collector w); [|discriminate].
    destruct (close (store w)) eqn:Hcl; [|discriminate].
    injection Hs as <-. cbn [store]. auto.
Qed.





(** X3: the collector returns only on [db.close]: from a store whose close
    channel is open, an execution that ends with the collector returned
    contains the closing of that channel. *)
Theorem collector_returns_only_after_shutdown g evs :
  forall w w',
    collector w = Idle ->
    close (store w) = false ->
    run g evs w = Some w' ->
    collector w' = Closed ->
    In Shutdown evs.
Proof.
  induction evs as [|ev evs IH]; intros w w' Hi Hcl Hrun Hend; cbn [run] in Hrun.
  - injection Hrun as <-. congruence.
  - destruct (step g ev w) as [w1|] eqn:Es; [|discriminate].
    destruct (step_frame g ev w w1 Es) as (_ & _ & _ & [Hk| ->]);
      [|left; reflexivity].
    right. apply (IH w1 w'); auto; [|congruence].
    destruct ev as [c|io| |]; cbn in Es; rewrite ?Hi, ?Hcl in Es; try discriminate.
    + injection Es as <-. reflexivity.
    + destruct (Chan.tryRecv _); [|discriminate].
      destruct (collectGarbageRun _ _ _ _). injection Es as <-. reflexivity.
    + injection Es as <-. reflexivity.
Qed.

Lemma collector_returns_only_after_shutdown_witness :
  In Shutdown [Inc 150; RecvTrigger quiet; Shutdown; RecvClose] /\
  run defaults [Inc 150; RecvTrigger quiet; RecvClose]
    (startWorld (sampleDB 100 0 4 0)) = None.
Proof.
  split.
  - destruct (run defaults [Inc 150; RecvTrigger quiet; Shutdown; RecvClose]
                (startWorld (sampleDB 100 0 4 0))) as [w'|] eqn:E;
      [|vm_compute in E; discriminate].
    apply (collector_returns_only_after_shutdown defaults _
             (startWorld (sampleDB 100 0 4 0)) w' eq_refl eq_refl E).
    vm_compute in E. injection E as <-. reflexivity.
  - reflexivity.
Defined.

(** ** What one run collects *)

(** X4: whatever happens during a run (concurrent increments, an iteration
    error, a failing commit), the batch handed to [WriteBatch] holds the
    deletes of the first [collectedCount] entries of the eviction-order
    index, entry by entry in iteration order and nothing else; entries are
    never skipped.  A successful commit applies exactly that batch and a
    failed one leaves the indexes as they were. *)
Theorem run_queues_lowest_entries_in_order g target io db :
  Int64.in_range (gcBatchSize g) ->
  let '(post, r) := collectGarbageRun g target io db in
  exists n,
    hooked r = Z.of_nat n /\
    (n <= List.length (shed db gcIndex))%nat /\
    written r = flat_map (deletesOf db) (firstn n (shed db gcIndex)) /\
    shed post = if committed r
                then fold_left deleteEntry (written r) (shed db)
                else shed db.
Proof.
  intros Hcap. unfold collectGarbageRun.
  destruct (iteratePhase_spec g target Hcap io db)
    as (pre & l & err & n & -> & Hpre & Hn & Hc & Hb & _).
  assert (Hshed : shed pre = shed db) by (subst pre; apply incAll_shed).
  destruct (writeBatchFails io).
  - rewrite commitPhase_fails. exists n. cbn [hooked written committed].
    auto.
  - pose proof (commitPhase_shed l err pre) as Hs.
    rewrite commitPhase_succeeds in *. cbn [fst] in Hs.
    exists n. cbn [hooked written committed].
    split; [exact Hc|]. split; [exact Hn|]. split; [exact Hb|].
    rewrite Hs, Hshed. reflexivity.
Qed.

Lemma run_queues_lowest_entries_in_order_witness :
  let io := {| foreground := [[3]; []; [5]]; iterateFailsAt := Some 2%nat;
               writeBatchFails := false |} in
  let '(post, r) := collectGarbageRun defaults 90 io (sampleDB 100 150 5 0) in
  written r = deletesOf (sampleDB 100 150 5 0) (item 0)
              ++ deletesOf (sampleDB 100 150 5 0) (item 1).
Proof.
  pose (io := {| foreground := [[3]; []; [5]]; iterateFailsAt := Some 2%nat;
                 writeBatchFails := false |}).
  assert (Hcap : Int64.in_range (gcBatchSize defaults))
    by (vm_compute; split; congruence).
  pose proof (run_queues_lowest_entries_in_order defaults 90 io
                (sampleDB 100 150 5 0) Hcap) as H.
  cbv zeta. fold io.
  destruct (collectGarbageRun defaults 90 io (sampleDB 100 150 5 0))
    as [post r] eqn:E.
  destruct H as (n & Hh & _ & Hw & _).
  assert (Hn : n = 2%nat).
  { vm_compute in E. injection E as _ <-. cbn [hooked] in Hh. lia. }
  rewrite Hw, Hn. reflexivity.
Defined.

Lemma deletesOf_length db it :
  Z.of_nat (List.length (deletesOf db it)) = deletesPerEntry db.
Proof.
  unfold deletesOf, dependentIndexes, deletesPerEntry.
  destruct (useRetrievalCompositeIndex db); reflexivity.
Qed.

Lemma flat_map_deletes_length db its :
  Z.of_nat (List.length (flat_map (deletesOf db) its))
  = deletesPerEntry db * Z.of_nat (List.length its).
Proof.
  induction its as [|it its IH]; cbn [flat_map List.length]; [lia|].
  rewrite length_app, Nat2Z.inj_add, IH, deletesOf_length. lia.
Qed.

Lemma IterateAll_nonpositive_cap g target :
  gcBatchSize g <= 0 ->
  forall entries failAt fg db,
    let '(_, l', _, _) :=
      IterateAll (gcVisit g target) entries failAt fg db newLocals in
    0 <= collectedCount l' <= 1.
Proof.
  intros Hcap entries failAt fg db.
  destruct entries as [|it rest].
  - destruct failAt as [[|k]|]; cbn; lia.
  - destruct (first_entry_fails_or_not failAt) as [->|Hf]; [cbn; lia|].
    rewrite (IterateAll_cons _ it rest failAt fg db newLocals Hf).
    destruct (gcVisit_cases g target (incAll (hd [] fg) db) newLocals it (iterInv_new g))
      as [(_ & ->) | [(_ & _ & ->) | (_ & Hb & _)]]; cbn in *; lia.
Qed.

(** X5: [gcBatchSize] bounds the batch of every run, whatever happens
    during it: at most [gcBatchSize] entries are collected, so the batch
    holds at most four deletes (three with the composite retrieval index)
    per entry of the cap.  With a cap that is not positive a run still
    collects at most one entry. *)
Theorem cap_bounds_every_batch g target io db :
  Int64.in_range (gcBatchSize g) ->
  let '(post, r) := collectGarbageRun g target io db in
  0 <= hooked r <= Z.max 1 (gcBatchSize g) /\
  Z.of_nat (List.length (written r)) = deletesPerEntry db * hooked r /\
  Z.of_nat (List.length (written r)) <= 4 * Z.max 1 (gcBatchSize g).
Proof.
  intros Hcap.
  assert (H : let '(pre, l, err) := iteratePhase g target io db in
              0 <= collectedCount l <= Z.max 1 (gcBatchSize g) /\
              Z.of_nat (List.length (batch l)) = deletesPerEntry db * collectedCount l).
  { destruct (iteratePhase_spec g target Hcap io db)
      as (pre & l & err & n & E & _ & Hn & Hc & Hb & Hr & Ht & Hf & _).
    rewrite E. split.
    - destruct (Z_lt_le_dec 0 (gcBatchSize g)) as [Hpos|Hneg].
      + destruct (triggerNextIteration l).
        * destruct (Ht eq_refl) as (_ & _ & Heq). specialize (Heq Hpos). lia.
        * destruct (Hf eq_refl) as (_ & _ & Hlt). specialize (Hlt Hpos). lia.
      + unfold iteratePhase in E.
        pose proof (IterateAll_nonpositive_cap g target Hneg (shed db gcIndex)
                      (iterateFailsAt io) (foreground io) db) as Hs.
        destruct (IterateAll _ _ _ _ _ _) as [[[db' l'] err'] late].
        injection E as _ <- _. lia.
    - rewrite Hb, flat_map_deletes_length, length_firstn, Hc.
      rewrite Nat.min_l by exact Hn. reflexivity. }
  unfold collectGarbageRun.
  destruct (iteratePhase g target io db) as [[pre l] err].
  destruct H as (H1 & H2).
  assert (Hrep : hooked (snd (commitPhase (writeBatchFails io) l err pre))
                 = collectedCount l /\
                 written (snd (commitPhase (writeBatchFails io) l err pre)) = batch l).
  { destruct (writeBatchFails io);
      [rewrite commitPhase_fails|rewrite commitPhase_succeeds]; cbn; auto. }
  destruct (commitPhase _ l err pre) as [post r]. cbn [snd] in Hrep.
  destruct Hrep as [-> ->].
  split; [exact H1|]. split; [exact H2|].
  rewrite H2. unfold deletesPerEntry.
  destruct (useRetrievalCompositeIndex db); lia.
Qed.

Lemma cap_bounds_every_batch_witness :
  let g := {| gcTargetRatio := Float64.c0_9; gcBatchSize := 0 |} in
  let '(post, r) := collectGarbageRun g 90 quiet (sampleDB 100 150 5 0) in
  hooked r = 1 /\ List.length (written r) = 4%nat.
Proof.
  pose (g := {| gcTargetRatio := Float64.c0_9; gcBatchSize := 0 |}).
  assert (Hcap : Int64.in_range (gcBatchSize g))
    by (vm_compute; split; congruence).
  pose proof (cap_bounds_every_batch g 90 quiet (sampleDB 100 150 5 0) Hcap) as H.
  cbv zeta. fold g.
  destruct (collectGarbageRun g 90 quiet (sampleDB 100 150 5 0)) as [post r] eqn:E.
  destruct H as (_ & Hl & _).
  assert (Hh : hooked r = 1).
  { vm_compute in E. injection E as _ <-. reflexivity. }
  split; [exact Hh|]. rewrite Hh in Hl. cbn in Hl. lia.
Defined.

Section Floor.

Variables (g : Globals) (target : Z).
Hypothesis Hcap : Int64.in_range (gcBatchSize g).

Lemma IterateAll_floor :
  forall entries failAt fg db l,
    iterInv g l ->
    0 <= gcSize db ->
    collectedCount l = 0 \/ target <= gcSize db - collectedCount l ->
    Forall (fun c => 0 < c) (concat fg) ->
    gcSize db + sumZ (concat fg) <= Int64.max_int ->
    let '(db', l', _, late) := IterateAll (gcVisit g target) entries failAt fg db l in
    gcSize db' + sumZ (concat late) = gcSize db + sumZ (concat fg) /\
    0 <= gcSize db' /\
    (collectedCount l' = 0 \/ target <= gcSize db' - collectedCount l') /\
    Forall (fun c => 0 < c) (concat late).
Proof.
  induction entries as [|it rest IH];
    intros failAt fg db l Hinv H0 Hfl Hp Hm; pose proof Hinv as (Hc & _ & _).
  - destruct failAt as [[|k]|]; cbn; auto.
  - destruct (first_entry_fails_or_not failAt) as [->|Hf]; [cbn; auto|].
    rewrite (IterateAll_cons _ it rest failAt fg db l Hf).
    destruct (Forall_hd_tl _ fg Hp) as [Hph Hpt].
    pose proof (sumZ_nonneg _ Hph) as Hnh. pose proof (sumZ_nonneg _ Hpt) as Hnt.
    assert (Hsum : sumZ (concat fg) = sumZ (hd [] fg) + sumZ (concat (tl fg))).
    { rewrite (concat_hd_tl fg) at 1. apply sumZ_app. }
    set (cur := incAll (hd [] fg) db).
    assert (Hcur : gcSize cur = gcSize db + sumZ (hd [] fg)).
    { apply incAll_gcSize; auto; lia. }
    assert (Hd : Int64.sub (gcSize cur) (collectedCount l)
                 = gcSize cur - collectedCount l).
    { unfold Int64.sub. apply wrap64_id. int64_lia. }
    destruct (gcVisit_cases g target cur l it Hinv)
      as [(_ & ->) | [(Hgt & Hb & ->) | (Hgt & Hb & ->)]].
    + split; [lia|]. split; [lia|]. split; [|exact Hpt]. lia.
    + cbn [collectedCount]. split; [lia|]. split; [lia|]. split; [|exact Hpt]. lia.
    + set (l1 := {| batch := batch l ++ deletesOf cur it;
                    triggerNextIteration := false;
                    collectedCount := collectedCount l + 1 |}).
      assert (Hinv1 : iterInv g l1).
      { unfold iterInv; cbn. repeat split; int64_lia. }
      specialize (IH (option_map Nat.pred failAt) (tl fg) cur l1 Hinv1).
      destruct (IterateAll (gcVisit g target) rest _ (tl fg) cur l1)
        as [[[db' l'] err] late].
      destruct IH as (H1 & H2 & H3 & H4); [lia|cbn; lia|exact Hpt|lia|].
      split; [lia|]. split; [exact H2|]. split; [exact H3|exact H4].
Qed.

End Floor.

(** X6: a run never drains below the target.  As long as the other
    goroutines only admit during the run, a run that collects anything
    leaves the accountant, once its commit succeeds, at the target or above
    it: an entry is taken only while the accountant minus the entries
    already taken exceeds the target. *)
Theorem run_never_drains_below_target g target io db :
  Int64.in_range (gcBatchSize g) ->
  0 <= gcSize db ->
  Forall (fun c => 0 < c) (concat (foreground io)) ->
  gcSize db + sumZ (concat (foreground io)) <= Int64.max_int ->
  let '(post, r) := collectGarbageRun g target io db in
  committed r = true ->
  0 < hooked r ->
  target <= gcSize post /\
  gcSize post = gcSize db + sumZ (concat (foreground io)) - hooked r.
Proof.
  intros Hcap H0 Hp Hm. unfold collectGarbageRun, iteratePhase.
  pose proof (IterateAll_floor g target Hcap (shed db gcIndex) (iterateFailsAt io)
                (foreground io) db newLocals (iterInv_new g) H0
                (or_introl eq_refl) Hp Hm) as H.
  pose proof (IterateAll_spec g target Hcap (shed db gcIndex) (iterateFailsAt io)
                (foreground io) db newLocals (iterInv_new g))
    as (db1 & l1 & err1 & late1 & n & E & _ & _ & _ & Hr & _).
  rewrite E in *. destruct H as (Hsum & Hpos & Hfl & Hpl).
  pose proof (sumZ_nonneg _ Hpl) as Hnl.
  assert (Hpre : gcSize (incAll (concat late1) db1) = gcSize db1 + sumZ (concat late1)).
  { apply incAll_gcSize; auto; lia. }
  destruct (writeBatchFails io).
  - rewrite commitPhase_fails. cbn [committed]. discriminate.
  - pose proof (commitPhase_gcSize l1 err1 (incAll (concat late1) db1)) as Hg.
    rewrite commitPhase_succeeds in *. cbn [fst] in Hg. cbn [committed hooked].
    intros _ Hh.
    assert (Hs : Int64.sub (gcSize (incAll (concat late1) db1)) (collectedCount l1)
                 = gcSize (incAll (concat late1) db1) - collectedCount l1).
    { unfold Int64.sub. apply wrap64_id. int64_lia. }
    rewrite Hg, Hs. lia.
Qed.

Lemma run_never_drains_below_target_witness :
  let io := {| foreground := [[2]; []; [1]]; iterateFailsAt := None;
               writeBatchFails := false |} in
  let '(post, r) := collectGarbageRun defaults 90 io (sampleDB 100 93 8 0) in
  hooked r = 6 /\ gcSize post = 90.
Proof.
  pose (io := {| foreground := [[2]; []; [1]]; iterateFailsAt := None;
                 writeBatchFails := false |}).
  assert (Hcap : Int64.in_range (gcBatchSize defaults))
    by (vm_compute; split; congruence).
  assert (Hp : Forall (fun c => 0 < c) (concat (foreground io))).
  { cbn. repeat constructor. }
  assert (Hm : gcSize (sampleDB 100 93 8 0) + sumZ (concat (foreground io))
               <= Int64.max_int) by (vm_compute; congruence).
  pose proof (run_never_drains_below_target defaults 90 io (sampleDB 100 93 8 0)
                Hcap ltac:(cbn; lia) Hp Hm) as H.
  cbv zeta. fold io.
  destruct (collectGarbageRun defaults 90 io (sampleDB 100 93 8 0))
    as [post r] eqn:E.
  assert (Hr : committed r = true /\ hooked r = 6).
  { vm_compute in E. injection E as _ <-. split; reflexivity. }
  destruct Hr as [Hc Hh].
  destruct (H Hc ltac:(lia)) as [_ Hg].
  split; [exact Hh|]. rewrite Hg, Hh. reflexivity.
Defined.

(** X7: a run on a store whose accountant is already at or below the
    target, with no concurrent increments, collects nothing: the first
    visit stops the iteration, the batch is empty, and neither the
    accountant nor any index changes, whether or not the iteration or the
    commit fails. *)
Theorem run_at_target_collects_nothing g target io db :
  Int64.in_range (gcSize db) ->
  gcSize db <= target ->
  concat (foreground io) = [] ->
  let '(post, r) := collectGarbageRun g target io db in
  hooked r = 0 /\ written r = [] /\
  gcSize post = gcSize db /\ shed post = shed db.
Proof.
  intros Hr Hle Hq.
  assert (Hfg : forall fg : list (list Z), concat fg = [] -> hd [] fg = []).
  { intros [|x xs]; cbn; [reflexivity|]. intros H. apply app_eq_nil in H. apply H. }
  assert (Hit : exists err late,
            IterateAll (gcVisit g target) (shed db gcIndex) (iterateFailsAt io)
              (foreground io) db newLocals = (db, newLocals, err, late)
            /\ concat late = []).
  { destruct (shed db gcIndex) as [|it rest].
    - exists (match iterateFailsAt io with Some O => true | _ => false end),
        (foreground io).
      split; [destruct (iterateFailsAt io) as [[|k]|]; reflexivity|exact Hq].
    - destruct (first_entry_fails_or_not (iterateFailsAt io)) as [Hf|Hf].
      + rewrite Hf. exists true, (foreground io). split; [reflexivity|exact Hq].
      + rewrite (IterateAll_cons _ it rest _ (foreground io) db newLocals Hf).
        pose proof (Hfg _ Hq) as Hhd.
        assert (Htl : concat (tl (foreground io)) = []).
        { rewrite (concat_hd_tl (foreground io)), Hhd in Hq. exact Hq. }
        rewrite Hhd. cbn [incAll fold_left].
        assert (Hv : gcVisit g target db newLocals it = (true, newLocals)).
        { unfold gcVisit. cbn [collectedCount newLocals].
          unfold Int64.sub. rewrite Z.sub_0_r, wrap64_id by exact Hr.
          destruct (Z.leb_spec (gcSize db) target); [reflexivity|lia]. }
        rewrite Hv. exists false, (tl (foreground io)). split; [reflexivity|].
        exact Htl. }
  destruct Hit as (err & late & E & Hlate).
  unfold collectGarbageRun, iteratePhase. rewrite E, Hlate.
  cbn [incAll fold_left].
  destruct (writeBatchFails io).
  - rewrite commitPhase_fails. cbn. auto.
  - pose proof (commitPhase_gcSize newLocals err db) as Hg.
    pose proof (commitPhase_shed newLocals err db) as Hs.
    rewrite commitPhase_succeeds in *. cbn [fst] in Hg, Hs.
    cbn [hooked written collectedCount batch newLocals] in *.
    split; [reflexivity|]. split; [reflexivity|].
    split; [|exact Hs].
    rewrite Hg. unfold Int64.sub. rewrite Z.sub_0_r. apply wrap64_id, Hr.
Qed.

Lemma run_at_target_collects_nothing_witness :
  let io := {| foreground := []; iterateFailsAt := Some 3%nat;
               writeBatchFails := false |} in
  let '(post, r) := collectGarbageRun defaults 90 io (sampleDB 100 90 5 0) in
  hooked r = 0 /\ gcSize post = 90 /\ shed post = shed (sampleDB 100 90 5 0).
Proof.
  pose (io := {| foreground := []; iterateFailsAt := Some 3%nat;
                 writeBatchFails := false |}).
  assert (Hr : Int64.in_range (gcSize (sampleDB 100 90 5 0)))
    by (vm_compute; split; congruence).
  pose proof (run_at_target_collects_nothing defaults 90 io (sampleDB 100 90 5 0)
                Hr ltac:(cbn; lia) eq_refl) as H.
  cbv zeta. fold io.
  destruct (collectGarbageRun defaults 90 io (sampleDB 100 90 5 0)) as [post r].
  destruct H as (H1 & _ & H3 & H4). auto.
Defined.

(** ** Undisturbed runs *)

Section Quiet.

Variables (g : Globals) (target : Z).
Hypothesis Hcap : 0 < gcBatchSize g <= Int64.max_int.

Lemma IterateAll_quiet_count :
  forall entries db l,
    iterInv g l ->
    0 <= gcSize db <= Int64.max_int ->
    exists l',
      IterateAll (gcVisit g target) entries None [] db l = (db, l', false, []) /\
      collectedCount l' =
        collectedCount l +
        Z.min (Z.of_nat (List.length entries))
          (Z.max 0 (Z.min (gcBatchSize g - collectedCount l)
                      (gcSize db - target - collectedCount l))).
Proof.
  induction entries as [|it rest IH]; intros db l Hinv Hg.
  - exists l. split; [reflexivity|]. cbn [List.length]. lia.
  - cbn [IterateAll hd tl option_map incAll fold_left].
    pose proof Hinv as (Hc & _ & Hlt). specialize (Hlt (proj1 Hcap)).
    assert (Hd : Int64.sub (gcSize db) (collectedCount l)
                 = gcSize db - collectedCount l).
    { unfold Int64.sub. apply wrap64_id. int64_lia. }
    destruct (gcVisit_cases g target db l it Hinv)
      as [(Hle & ->) | [(Hgt & Hb & ->) | (Hgt & Hb & ->)]].
    + exists l. split; [reflexivity|]. cbn [List.length]. lia.
    + eexists. split; [reflexivity|]. cbn [collectedCount List.length]. lia.
    + set (l1 := {| batch := batch l ++ deletesOf db it;
                    triggerNextIteration := false;
                    collectedCount := collectedCount l + 1 |}).
      assert (Hinv1 : iterInv g l1).
      { unfold iterInv; cbn. repeat split; int64_lia. }
      destruct (IH db l1 Hinv1 Hg) as (l' & -> & Hcount).
      exists l'. split; [reflexivity|].
      rewrite Hcount. cbn [collectedCount l1 List.length]. lia.
Qed.

Lemma quiet_run_spec db :
  0 <= gcSize db <= Int64.max_int ->
  exists l,
    iteratePhase g target quiet db = (db, l, false) /\
    collectedCount l = expectedCount g target db /\
    0 <= expectedCount g target db <= gcBatchSize g /\
    (triggerNextIteration l = true <-> expectedCount g target db = gcBatchSize g) /\
    batch l = flat_map (deletesOf db)
                (firstn (Z.to_nat (expectedCount g target db)) (shed db gcIndex)).
Proof.
  intros Hg. assert (Hr : Int64.in_range (gcBatchSize g)) by int64_lia.
  destruct (IterateAll_quiet_count (shed db gcIndex) db newLocals (iterInv_new g) Hg)
    as (l & E & Hcount).
  destruct (IterateAll_spec g target Hr (shed db gcIndex) None [] db newLocals
              (iterInv_new g))
    as (db' & l' & err & late & n & E' & _ & Hn & Hb & _ & Ht & Hf & _).
  rewrite E in E'. injection E' as <- <- <- <-.
  cbn [collectedCount batch newLocals app] in *.
  assert (Hexp : collectedCount l = expectedCount g target db).
  { unfold expectedCount. lia. }
  exists l. unfold iteratePhase. cbn [foreground iterateFailsAt quiet].
  rewrite E. cbn [concat incAll fold_left].
  split; [reflexivity|]. split; [exact Hexp|].
  split; [unfold expectedCount; lia|]. split.
  - rewrite <- Hexp. split.
    + intros H. destruct (Ht H) as (_ & _ & Heq). apply Heq, Hcap.
    + intros H. destruct (triggerNextIteration l); [reflexivity|].
      destruct (Hf eq_refl) as (_ & _ & Hlt). specialize (Hlt (proj1 Hcap)). lia.
  - rewrite <- Hexp. replace (Z.to_nat (collectedCount l)) with n by lia.
    exact Hb.
Qed.

End Quiet.

Lemma quiet_eta io :
  foreground io = [] -> iterateFailsAt io = None -> writeBatchFails io = false ->
  io = quiet.
Proof. destruct io; cbn; intros -> -> ->; reflexivity. Qed.

(** X8: a run without concurrent increments and without failures collects
    exactly min (gcBatchSize, accountant - target, entries in the index)
    entries (none when the accountant is at or below the target) and lowers
    the accountant by as many.  It leaves a signal pending exactly when it
    hit the cap or the accountant is still at or above the capacity. *)
Theorem quiet_run_collects_exactly g target io db :
  0 < gcBatchSize g <= Int64.max_int ->
  0 <= gcSize db <= Int64.max_int ->
  foreground io = [] ->
  iterateFailsAt io = None ->
  writeBatchFails io = false ->
  let c := expectedCount g target db in
  let '(post, r) := collectGarbageRun g target io db in
  hooked r = c /\
  committed r = true /\
  gcSize post = gcSize db - c /\
  (collectGarbageTrigger db = 0%nat ->
   (pending post <-> c = gcBatchSize g \/ capacity db <= gcSize db - c)).
Proof.
  intros Hcap Hg Hfg Hfa Hw c. rewrite (quiet_eta io Hfg Hfa Hw).
  destruct (quiet_run_spec g target Hcap db Hg) as (l & E & Hc & Hrange & Ht & _).
  fold c in Hc, Hrange, Ht.
  unfold collectGarbageRun. rewrite E. cbn [writeBatchFails quiet].
  pose proof (commitPhase_gcSize l false db) as Hgs.
  pose proof (commitPhase_trigger l false db) as Hts.
  rewrite commitPhase_succeeds in *. cbn [fst] in Hgs, Hts.
  cbn [hooked committed].
  assert (Hs : Int64.sub (gcSize db) (collectedCount l) = gcSize db - c).
  { rewrite Hc. unfold Int64.sub. apply wrap64_id. int64_lia. }
  rewrite Hs in Hgs, Hts.
  split; [exact Hc|]. split; [reflexivity|]. split; [exact Hgs|].
  intros H0. unfold pending. rewrite Hts, H0. cbv zeta.
  destruct (triggerNextIteration l) eqn:Etr.
  - split; [intros _; left; apply Ht; reflexivity|intros _; apply trySend_nonzero].
  - destruct (Z.leb_spec (capacity db) (gcSize db - c)) as [Hle|Hgt].
    + split; [intros _; right; exact Hle|intros _; apply trySend_nonzero].
    + split; [intros H; congruence|].
      intros [H|H]; [|lia]. apply Ht in H. congruence.
Qed.

Lemma quiet_run_collects_exactly_witness :
  let g := {| gcTargetRatio := Float64.c0_9; gcBatchSize := 7 |} in
  let '(post, r) := collectGarbageRun g 90 quiet (sampleDB 100 95 4 0) in
  hooked r = 4 /\ gcSize post = 91 /\ ~ pending post.
Proof.
  pose (g := {| gcTargetRatio := Float64.c0_9; gcBatchSize := 7 |}).
  assert (Hcap : 0 < gcBatchSize g <= Int64.max_int)
    by (vm_compute; split; congruence).
  assert (Hg : 0 <= gcSize (sampleDB 100 95 4 0) <= Int64.max_int)
    by (vm_compute; split; congruence).
  pose proof (quiet_run_collects_exactly g 90 quiet (sampleDB 100 95 4 0)
                Hcap Hg eq_refl eq_refl eq_refl) as H.
  cbv zeta in H |- *. fold g.
  destruct (collectGarbageRun g 90 quiet (sampleDB 100 95 4 0)) as [post r].
  destruct H as (Hh & _ & Hgs & Hp).
  split; [rewrite Hh; reflexivity|]. split; [rewrite Hgs; reflexivity|].
  intros Hpend. apply (Hp eq_refl) in Hpend.
  destruct Hpend as [H|H]; vm_compute in H; [discriminate|apply H; reflexivity].
Defined.

(** ** Draining by successive runs *)

Lemma fold_deletesOf_inGC db it s :
  inGC (fold_left deleteEntry (deletesOf db it) s)
  = filter (fun x => negb (N.eqb (Address x) (Address it))) (inGC s).
Proof.
  unfold deletesOf, dependentIndexes.
  destruct (useRetrievalCompositeIndex db); reflexivity.
Qed.

Lemma fold_flat_inGC db its :
  forall s,
    inGC (fold_left deleteEntry (flat_map (deletesOf db) its) s)
    = fold_left
        (fun l it => filter (fun x => negb (N.eqb (Address x) (Address it))) l)
        its (inGC s).
Proof.
  induction its as [|it its IH]; intros s; [reflexivity|].
  cbn [flat_map fold_left]. rewrite fold_left_app, IH, fold_deletesOf_inGC.
  reflexivity.
Qed.

Lemma filter_absent a l :
  ~ In a (map Address l) ->
  filter (fun x => negb (N.eqb (Address x) a)) l = l.
Proof.
  induction l as [|x l IH]; cbn [map filter]; intros Hn; [reflexivity|].
  destruct (N.eqb_spec (Address x) a) as [E|_].
  - exfalso. apply Hn. left. exact E.
  - cbn [negb]. rewrite IH; [reflexivity|]. intros H. apply Hn. right. exact H.
Qed.

Lemma delete_prefix n :
  forall L,
    NoDup (map Address L) ->
    fold_left
      (fun l it => filter (fun x => negb (N.eqb (Address x) (Address it))) l)
      (firstn n L) L
    = skipn n L.
Proof.
  induction n as [|n IH]; intros L Hnd; [reflexivity|].
  destruct L as [|x L]; [reflexivity|].
  cbn [firstn fold_left skipn filter map] in *.
  apply NoDup_cons_iff in Hnd. destruct Hnd as [Hx Hnd].
  rewrite N.eqb_refl. cbn [negb]. rewrite filter_absent by exact Hx.
  apply IH, Hnd.
Qed.

Lemma NoDup_skipn (n : nat) (l : list N) : NoDup l -> NoDup (skipn n l).
Proof.
  intros H. rewrite <- (firstn_skipn n l) in H.
  apply NoDup_app_remove_l in H. exact H.
Qed.

Section Drain.

Variable g : Globals.
Hypothesis Hcap : 0 < gcBatchSize g <= Int64.max_int.

(** one undisturbed run of the collector on a store that is over target
    and whose index holds the excess *)
Lemma quiet_step w :
  collector w = Idle ->
  wfDB (store w) ->
  pending (store w) ->
  0 <= gcTarget g (store w) < gcSize (store w) ->
  gcSize (store w) - gcTarget g (store w)
    <= Z.of_nat (List.length (shed (store w) gcIndex)) ->
  NoDup (gcAddresses (store w)) ->
  let c := Z.min (gcBatchSize g) (gcSize (store w) - gcTarget g (store w)) in
  exists w1,
    step g (RecvTrigger quiet) w = Some w1 /\
    collector w1 = Idle /\
    wfDB (store w1) /\
    capacity (store w1) = capacity (store w) /\
    gcSize (store w1) = gcSize (store w) - c /\
    evicted (reports w1) = evicted (reports w) + c /\
    shed (store w1) gcIndex = skipn (Z.to_nat c) (shed (store w) gcIndex) /\
    (pending (store w1) <->
     c = gcBatchSize g \/ capacity (store w) <= gcSize (store w) - c).
Proof.
  intros Hidle Hwf Hpend Hover Hlen Hnd c.
  pose proof Hwf as (Hc1 & Hg1 & Ht1).
  set (db := afterRecv (store w)).
  assert (Hg : 0 <= gcSize db <= Int64.max_int) by (cbn; int64_lia).
  destruct (quiet_run_spec g (gcTarget g (store w)) Hcap db Hg)
    as (l & E & Hc & _ & Htr & Hb).
  assert (Hexp : expectedCount g (gcTarget g (store w)) db = c).
  { unfold expectedCount, c. cbn [gcSize shed db afterRecv with_trigger]. lia. }
  rewrite Hexp in Hc, Htr, Hb.
  destruct (step g (RecvTrigger quiet) w) as [w1|] eqn:Es.
  2:{ exfalso. revert Es. apply step_RecvTrigger_enabled. auto. }
  destruct (step_frame g _ w w1 Es) as (Hk & _ & Hw1 & _).
  exists w1. split; [reflexivity|].
  rewrite step_RecvTrigger, Hidle in Es.
  destruct (Nat.eqb_spec (collectGarbageTrigger (store w)) 0) as [Hz|_];
    [contradiction|].
  assert (Hres : collectGarbageRun g (gcTarget g (store w)) quiet db
                 = commitPhase false l false db).
  { unfold collectGarbageRun. rewrite E. reflexivity. }
  cbv zeta in Es. fold db in Es. rewrite Hres in Es.
  pose proof (commitPhase_gcSize l false db) as Hgs.
  pose proof (commitPhase_trigger l false db) as Hts.
  pose proof (commitPhase_shed l false db) as Hss.
  assert (Hrep : snd (commitPhase false l false db) =
                 {| logged := []; written := batch l; committed := true;
                    hooked := collectedCount l |}).
  { rewrite commitPhase_succeeds. reflexivity. }
  remember (commitPhase false l false db) as res eqn:Eres. clear Eres.
  injection Es as <-. cbn [store collector reports].
  assert (Hs : Int64.sub (gcSize db) (collectedCount l) = gcSize (store w) - c).
  { rewrite Hc. unfold Int64.sub. apply wrap64_id. cbn. unfold c. int64_lia. }
  rewrite Hs in Hgs, Hts.
  split; [reflexivity|]. split; [apply Hw1, Hwf|]. split; [exact Hk|].
  split; [exact Hgs|]. split.
  { rewrite evicted_snoc, Hrep. cbn [committed hooked]. rewrite Hc. reflexivity. }
  split.
  { rewrite Hss, Hb. unfold entriesOf. rewrite fold_flat_inGC.
    apply delete_prefix. exact Hnd. }
  unfold pending. rewrite Hts. cbv zeta.
  assert (H0 : collectGarbageTrigger db = 0%nat).
  { unfold db, afterRecv, Chan.slots, pending in *. cbn. lia. }
  rewrite H0. change (capacity db) with (capacity (store w)).
  destruct (triggerNextIteration l) eqn:Etr.
  - split; [intros _; left; apply Htr; reflexivity|intros _; apply trySend_nonzero].
  - destruct (Z.leb_spec (capacity (store w)) (gcSize (store w) - c)) as [Hle|Hgt].
    + split; [intros _; right; exact Hle|intros _; apply trySend_nonzero].
    + split; [intros H; congruence|].
      intros [H|H]; [|lia]. apply Htr in H. congruence.
Qed.

Lemma drain_runs :
  forall k w,
    collector w = Idle ->
    wfDB (store w) ->
    pending (store w) ->
    0 <= gcTarget g (store w) < gcSize (store w) ->
    gcSize (store w) - gcTarget g (store w)
      <= Z.of_nat (List.length (shed (store w) gcIndex)) ->
    NoDup (gcAddresses (store w)) ->
    (Z.of_nat k - 1) * gcBatchSize g < gcSize (store w) - gcTarget g (store w)
      <= Z.of_nat k * gcBatchSize g ->
    exists w',
      run g (repeat (RecvTrigger quiet) k) w = Some w' /\
      collector w' = Idle /\
      gcSize (store w') = gcTarget g (store w) /\
      evicted (reports w')
        = evicted (reports w) + (gcSize (store w) - gcTarget g (store w)) /\
      shed (store w') gcIndex
        = skipn (Z.to_nat (gcSize (store w) - gcTarget g (store w)))
            (shed (store w) gcIndex) /\
      (pending (store w') <->
       gcSize (store w) - gcTarget g (store w) = Z.of_nat k * gcBatchSize g \/
       capacity (store w) <= gcTarget g (store w)).
Proof.
  induction k as [|k IH]; intros w Hidle Hwf Hpend Hover Hlen Hnd Hk.
  - exfalso. cbn in Hk. lia.
  - destruct (quiet_step w Hidle Hwf Hpend Hover Hlen Hnd)
      as (w1 & Es & Hi1 & Hw1 & Hc1 & Hg1 & He1 & Hs1 & Hp1).
    cbv zeta in Hg1, He1, Hs1, Hp1.
    cbn [repeat run]. rewrite Es.
    set (D := gcSize (store w) - gcTarget g (store w)) in *.
    assert (HT : gcTarget g (store w1) = gcTarget g (store w))
      by (apply gcTarget_capacity, Hc1).
    destruct k as [|k].
    + (* the last run: the excess fits under the cap *)
      assert (Hmin : Z.min (gcBatchSize g) D = D) by lia.
      rewrite Hmin in *. exists w1. cbn [repeat run].
      split; [reflexivity|]. split; [exact Hi1|]. split; [lia|].
      split; [exact He1|]. split; [exact Hs1|].
      rewrite Hp1. split; intros [H|H]; lia.
    + (* a capped run, followed by the remaining ones *)
      assert (Hlt : gcBatchSize g < D) by lia.
      assert (Hmin : Z.min (gcBatchSize g) D = gcBatchSize g) by lia.
      rewrite Hmin in *.
      destruct (IH w1) as (w' & Hrun & Hi' & Hg' & He' & Hs' & Hp'); auto.
      * apply Hp1. left. reflexivity.
      * rewrite HT. lia.
      * rewrite HT, Hs1, length_skipn. lia.
      * unfold gcAddresses. rewrite Hs1, <- skipn_map. apply NoDup_skipn, Hnd.
      * rewrite HT. lia.
      * exists w'. rewrite HT, Hg1, Hc1 in *.
        split; [exact Hrun|]. split; [exact Hi'|]. split; [exact Hg'|].
        split; [lia|]. split.
        { rewrite Hs', Hs1, skipn_skipn. f_equal. unfold D. lia. }
        rewrite Hp'. split; intros [H|H]; lia.
Qed.

End Drain.

(** X9: left alone, the collector drains an over-target store to exactly
    the target.  From an idle collector with a pending signal, an
    accountant above a non-negative target, and an eviction-order index of
    distinct chunks that holds at least the excess, ceil (excess / cap)
    undisturbed runs follow one another (each capped run re-arms the
    trigger), after which the accountant equals the target, exactly the
    excess has been evicted, and the index has lost exactly its first
    excess entries.  A signal is left pending only if the last run hit the
    cap exactly or the target is not below the capacity. *)
Theorem collector_drains_to_target g w :
  0 < gcBatchSize g <= Int64.max_int ->
  collector w = Idle ->
  wfDB (store w) ->
  pending (store w) ->
  0 <= gcTarget g (store w) < gcSize (store w) ->
  gcSize (store w) - gcTarget g (store w)
    <= Z.of_nat (List.length (shed (store w) gcIndex)) ->
  NoDup (gcAddresses (store w)) ->
  let excess := gcSize (store w) - gcTarget g (store w) in
  let runs := Z.to_nat ((excess + gcBatchSize g - 1) / gcBatchSize g) in
  exists w',
    run g (repeat (RecvTrigger quiet) runs) w = Some w' /\
    collector w' = Idle /\
    gcSize (store w') = gcTarget g (store w) /\
    evicted (reports w') = evicted (reports w) + excess /\
    shed (store w') gcIndex = skipn (Z.to_nat excess) (shed (store w) gcIndex) /\
    (pending (store w') <->
     excess mod gcBatchSize g = 0 \/ capacity (store w) <= gcTarget g (store w)).
Proof.
  intros Hcap Hidle Hwf Hpend Hover Hlen Hnd excess runs.
  pose proof (Z.div_mod (excess + gcBatchSize g - 1) (gcBatchSize g) ltac:(lia)) as Hdm.
  pose proof (Z.mod_pos_bound (excess + gcBatchSize g - 1) (gcBatchSize g)
                ltac:(lia)) as Hmb.
  set (q := (excess + gcBatchSize g - 1) / gcBatchSize g) in *.
  assert (Hq0 : 0 <= q) by (apply Z.div_pos; unfold excess; lia).
  assert (Hruns : Z.of_nat runs = q) by (unfold runs; lia).
  assert (Hk : (Z.of_nat runs - 1) * gcBatchSize g < excess
               <= Z.of_nat runs * gcBatchSize g).
  { rewrite Hruns. nia. }
  destruct (drain_runs g Hcap runs w Hidle Hwf Hpend Hover Hlen Hnd Hk)
    as (w' & Hrun & Hi & Hg & He & Hs & Hp).
  exists w'. split; [exact Hrun|]. split; [exact Hi|]. split; [exact Hg|].
  split; [exact He|]. split; [exact Hs|].
  rewrite Hp. fold excess. rewrite Hruns.
  assert (Hmod : excess = q * gcBatchSize g <-> excess mod gcBatchSize g = 0).
  { split; intros H.
    - rewrite H. apply Z.mod_mul. lia.
    - apply Z.mod_divide in H; [|lia]. destruct H as [z Hz].
      assert (z = q) by nia. subst z. exact Hz. }
  rewrite Hmod. reflexivity.
Qed.

Lemma items_NoDup n : NoDup (map Address (items n)).
Proof.
  unfold items. rewrite map_map. cbn [Address item].
  generalize (seq_NoDup n 0). generalize (seq 0 n).
  induction l as [|x l IH]; intros Hnd; cbn [map]; constructor.
  - apply NoDup_cons_iff in Hnd. destruct Hnd as [Hx _].
    intros Hin. apply in_map_iff in Hin. destruct Hin as (y & Hy & Hin).
    assert (y = x) by lia. subst y. exact (Hx Hin).
  - apply IH. apply NoDup_cons_iff in Hnd. apply Hnd.
Qed.

Lemma collector_drains_to_target_witness :
  let g := {| gcTargetRatio := Float64.c0_9; gcBatchSize := 4 |} in
  exists w',
    run g [RecvTrigger quiet; RecvTrigger quiet; RecvTrigger quiet]
      (startWorld (sampleDB 10 19 25 1)) = Some w' /\
    gcSize (store w') = 9 /\
    evicted (reports w') = 10 /\
    shed (store w') gcIndex = skipn 10 (items 25) /\
    ~ pending (store w').
Proof.
  pose (g := {| gcTargetRatio := Float64.c0_9; gcBatchSize := 4 |}).
  pose (w := startWorld (sampleDB 10 19 25 1)).
  assert (Hcap : 0 < gcBatchSize g <= Int64.max_int)
    by (vm_compute; split; congruence).
  assert (Hwf : wfDB (store w)).
  { repeat split; try (vm_compute; congruence). cbn. unfold Chan.slots. lia. }
  assert (Hpend : pending (store w)) by (vm_compute; congruence).
  assert (Hover : 0 <= gcTarget g (store w) < gcSize (store w))
    by (vm_compute; split; congruence).
  assert (Hlen : gcSize (store w) - gcTarget g (store w)
                 <= Z.of_nat (List.length (shed (store w) gcIndex)))
    by (vm_compute; congruence).
  assert (Hnd : NoDup (gcAddresses (store w))).
  { exact (items_NoDup 25). }
  destruct (collector_drains_to_target g w Hcap eq_refl Hwf Hpend Hover Hlen Hnd)
    as (w' & Hrun & _ & Hg & He & Hs & Hp).
  exists w'. split; [exact Hrun|]. split; [rewrite Hg; reflexivity|].
  split; [rewrite He; reflexivity|]. split; [rewrite Hs; reflexivity|].
  intros H. apply Hp in H. destruct H as [H|H]; vm_compute in H;
    [discriminate|apply H; reflexivity].
Defined.

(** ** More on the accountant *)

Lemma wrap64_wrap_add x y : Int64.wrap64 (Int64.wrap64 x + y) = Int64.wrap64 (x + y).
Proof. rewrite Z.add_comm, wrap64_add_wrap, Z.add_comm. reflexivity. Qed.

Lemma incAll_gcSize_sum cs :
  forall db,
    Int64.in_range (gcSize db) ->
    gcSize (incAll cs db) = Int64.wrap64 (gcSize db + sumZ cs).
Proof.
  induction cs as [|c cs IH]; intros db Hr; cbn [incAll fold_left].
  - unfold sumZ; cbn [fold_right]. rewrite Z.add_0_r. symmetry. apply wrap64_id, Hr.
  - fold (incAll cs (incGCSize c db)).
    rewrite IH by (rewrite incGCSize_gcSize; apply wrap64_in_range).
    rewrite incGCSize_gcSize. unfold Int64.add. rewrite wrap64_wrap_add.
    f_equal. unfold sumZ; cbn [fold_right]. lia.
Qed.

(** X10: the accountant is a wrapping sum.  After any sequence of
    [incGCSize] calls it holds the old value plus the sum of the counts,
    reduced to an [int64]; so the order and the grouping of the calls do not
    matter, and an increment followed by the decrement of the same count
    restores the value even across an overflow. *)
Theorem accountant_is_a_wrapping_sum cs db :
  Int64.in_range (gcSize db) ->
  gcSize (incAll cs db) = Int64.wrap64 (gcSize db + sumZ cs) /\
  (forall cs', sumZ cs' = sumZ cs -> gcSize (incAll cs' db) = gcSize (incAll cs db)) /\
  (forall c, gcSize (incGCSize (Int64.neg c) (incGCSize c db)) = gcSize db).
Proof.
  intros Hr. split; [apply incAll_gcSize_sum, Hr|]. split.
  - intros cs' Hs. rewrite !incAll_gcSize_sum by exact Hr. rewrite Hs. reflexivity.
  - intros c. rewrite !incGCSize_gcSize, add_neg_sub.
    unfold Int64.sub, Int64.add.
    rewrite <- Z.add_opp_r, wrap64_wrap_add.
    replace (gcSize db + c + - c) with (gcSize db) by lia. apply wrap64_id, Hr.
Qed.

Lemma accountant_is_a_wrapping_sum_witness :
  gcSize (incAll [1; Int64.max_int; -5] (sampleDB 100 7 0 0))
    = gcSize (incAll [-5; 1; Int64.max_int] (sampleDB 100 7 0 0)) /\
  gcSize (incGCSize (Int64.neg Int64.max_int)
            (incGCSize Int64.max_int (sampleDB 100 7 0 0))) = 7.
Proof.
  assert (Hr : Int64.in_range (gcSize (sampleDB 100 7 0 0)))
    by (vm_compute; split; congruence).
  destruct (accountant_is_a_wrapping_sum [-5; 1; Int64.max_int]
              (sampleDB 100 7 0 0) Hr) as (_ & Hperm & Hround).
  split; [apply Hperm; reflexivity|apply Hround].
Defined.

Lemma anyReach_admissions cs :
  forall db,
    Forall (fun c => 0 < c) cs ->
    0 <= gcSize db ->
    gcSize db + sumZ cs <= Int64.max_int ->
    (anyReach cs db = true <-> cs <> [] /\ capacity db <= gcSize db + sumZ cs).
Proof.
  induction cs as [|c cs IH]; intros db Hp H0 Hm.
  - cbn. split; [discriminate|]. intros [H _]. congruence.
  - inversion Hp as [|? ? Hc Hcs]; subst.
    unfold sumZ in Hm |- *; cbn [fold_right] in Hm |- *. fold (sumZ cs) in *.
    pose proof (sumZ_nonneg cs Hcs) as Hn.
    assert (Hg : gcSize (incGCSize c db) = gcSize db + c).
    { rewrite incGCSize_gcSize. unfold Int64.add. apply wrap64_id. int64_lia. }
    cbn [anyReach]. rewrite orb_true_iff, IH; auto; try lia.
    rewrite incGCSize_capacity, Hg.
    assert (Ha : Int64.add (gcSize db) c = gcSize db + c).
    { unfold Int64.add. apply wrap64_id. int64_lia. }
    rewrite Ha, Z.leb_le.
    split.
    + intros [H|[_ H]]; (split; [discriminate|lia]).
    + intros [_ H]. destruct cs as [|c' cs']; [left|right].
      * unfold sumZ in H; cbn in H. lia.
      * split; [discriminate|lia].
Qed.

(** X11: admissions arm the trigger exactly when they bring the accountant
    to the capacity.  With an empty trigger slot, after a non-empty
    sequence of admissions (positive counts that fit an [int64]) a signal
    is pending if and only if the accountant has reached the capacity. *)
Theorem admissions_trigger_at_capacity cs db :
  cs <> [] ->
  collectGarbageTrigger db = 0%nat ->
  Forall (fun c => 0 < c) cs ->
  0 <= gcSize db ->
  gcSize db + sumZ cs <= Int64.max_int ->
  gcSize (incAll cs db) = gcSize db + sumZ cs /\
  (pending (incAll cs db) <-> capacity db <= gcSize (incAll cs db)).
Proof.
  intros Hne H0 Hp Hg Hm.
  pose proof (incAll_gcSize cs db Hp Hg Hm) as Hs.
  split; [exact Hs|].
  rewrite (incAll_pending_iff cs db H0), (anyReach_admissions cs db Hp Hg Hm), Hs.
  tauto.
Qed.

Lemma admissions_trigger_at_capacity_witness :
  ~ pending (incAll [1; 1; 1] (sampleDB 100 96 0 0)) /\
  pending (incAll [1; 1; 1; 1] (sampleDB 100 96 0 0)).
Proof.
  assert (Hp3 : Forall (fun c => 0 < c) [1; 1; 1]) by (repeat constructor).
  assert (Hp4 : Forall (fun c => 0 < c) [1; 1; 1; 1]) by (repeat constructor).
  assert (Hg : 0 <= gcSize (sampleDB 100 96 0 0)) by (cbn; lia).
  assert (Hm3 : gcSize (sampleDB 100 96 0 0) + sumZ [1; 1; 1] <= Int64.max_int)
    by (vm_compute; congruence).
  assert (Hm4 : gcSize (sampleDB 100 96 0 0) + sumZ [1; 1; 1; 1] <= Int64.max_int)
    by (vm_compute; congruence).
  destruct (admissions_trigger_at_capacity [1; 1; 1] (sampleDB 100 96 0 0)
              ltac:(discriminate) eq_refl Hp3 Hg Hm3) as (Hs3 & H3).
  destruct (admissions_trigger_at_capacity [1; 1; 1; 1] (sampleDB 100 96 0 0)
              ltac:(discriminate) eq_refl Hp4 Hg Hm4) as (Hs4 & H4).
  split.
  - intros H. apply H3 in H. rewrite Hs3 in H. vm_compute in H. apply H. reflexivity.
  - apply H4. rewrite Hs4. vm_compute. congruence.
Defined.

(** ** More on the target *)

(** X12: the target leaves headroom below the capacity.  For every
    capacity from 1 up to the first inexact one, [gcTarget] is not negative
    and strictly below the capacity, and the gap is the tenth of the
    capacity rounded up; so a store drained to the target takes at least
    that many admissions before the trigger fires again. *)
Theorem target_leaves_headroom g db :
  gcTargetRatio g = Float64.c0_9 ->
  0 < capacity db < firstInexactCapacity ->
  0 <= gcTarget g db < capacity db /\
  capacity db <= 10 * (capacity db - gcTarget g db) < capacity db + 10.
Proof.
  intros Hr Hc. unfold gcTarget. rewrite Hr.
  rewrite target_threshold by lia.
  pose proof (Z.div_mod (capacity db * 9) 10 ltac:(lia)) as Hd.
  pose proof (Z.mod_pos_bound (capacity db * 9) 10 ltac:(lia)) as Hm.
  lia.
Qed.

Lemma target_leaves_headroom_witness :
  gcTarget defaults (sampleDB 101 0 0 0) = 90 /\
  ~ pending (incAll [1; 1; 1; 1; 1; 1; 1; 1; 1; 1] (sampleDB 101 90 0 0)).
Proof.
  destruct (target_leaves_headroom defaults (sampleDB 101 0 0 0) eq_refl)
    as (H1 & H2).
  - unfold firstInexactCapacity. cbn. lia.
  - cbn [capacity sampleDB] in *. split; [lia|].
    vm_compute. intros H. apply H. reflexivity.
Defined.

Lemma wrap64_opp_wrap y : Int64.wrap64 (- Int64.wrap64 y) = Int64.wrap64 (- y).
Proof.
  unfold Int64.wrap64. f_equal.
  replace (- ((y + 2 ^ 63) mod 2 ^ 64 - 2 ^ 63) + 2 ^ 63)
    with (2 ^ 64 - (y + 2 ^ 63) mod 2 ^ 64) by lia.
  rewrite Zminus_mod_idemp_r.
  replace (2 ^ 64 - (y + 2 ^ 63)) with (- y + 2 ^ 63 + (-1) * 2 ^ 64 + 2 ^ 64) by lia.
  replace (- y + 2 ^ 63 + (-1) * 2 ^ 64 + 2 ^ 64) with (- y + 2 ^ 63 + 0 * 2 ^ 64) by lia.
  rewrite Z.mod_add by lia. reflexivity.
Qed.

Lemma round_opp m e :
  Float64.round (- m) e =
  Float64.mk (- Float64.mant (Float64.round m e)) (Float64.expo (Float64.round m e)).
Proof.
  unfold Float64.round. rewrite Z.abs_opp, Z.sgn_opp.
  destruct (_ <=? 0); cbn [Float64.mant Float64.expo]; [reflexivity|].
  f_equal. lia.
Qed.

Lemma to_int64_opp f :
  Float64.to_int64 (Float64.mk (- Float64.mant f) (Float64.expo f))
  = Int64.wrap64 (- Float64.to_int64 f).
Proof.
  unfold Float64.to_int64. cbn [Float64.mant Float64.expo].
  destruct (Z.leb_spec 0 (Float64.expo f)) as [He|He];
    rewrite wrap64_opp_wrap; f_equal.
  - lia.
  - apply Z.quot_opp_l. apply Z.pow_nonzero; lia.
Qed.

Lemma target_opp c :
  Float64.to_int64 (Float64.mul (Float64.of_int64 (- c)) Float64.c0_9)
  = Int64.wrap64
      (- Float64.to_int64 (Float64.mul (Float64.of_int64 c) Float64.c0_9)).
Proof.
  unfold Float64.of_int64, Float64.mul. rewrite round_opp.
  cbn [Float64.mant Float64.expo].
  rewrite Z.mul_opp_l, round_opp. apply to_int64_opp.
Qed.

(** X13: [gcTarget] discards the fraction towards zero and is odd.  For
    every capacity strictly between minus and plus the first inexact one it
    returns the quotient of nine times the capacity by ten truncated
    towards zero, so for a negative capacity the target is minus the target
    of the opposite capacity (for -11 it is -9, not the floor -10) and
    therefore not below the capacity. *)
Theorem gcTarget_truncates_towards_zero g db :
  gcTargetRatio g = Float64.c0_9 ->
  - firstInexactCapacity < capacity db < firstInexactCapacity ->
  gcTarget g db = Z.quot (capacity db * 9) 10 /\
  (capacity db < 0 -> capacity db <= gcTarget g db <= 0).
Proof.
  intros Hr Hc. unfold gcTarget. rewrite Hr.
  destruct (Z_le_gt_dec 0 (capacity db)) as [Hpos|Hneg].
  - rewrite target_threshold by lia.
    split; [rewrite Z.quot_div_nonneg by lia; reflexivity|lia].
  - set (a := - capacity db).
    replace (capacity db) with (- a) by (unfold a; lia).
    assert (Ha : 0 <= a < firstInexactCapacity) by (unfold a; lia).
    rewrite target_opp, target_threshold by exact Ha.
    pose proof (Z.div_mod (a * 9) 10 ltac:(lia)) as Hd.
    pose proof (Z.mod_pos_bound (a * 9) 10 ltac:(lia)) as Hm.
    assert (Hw : Int64.wrap64 (- (a * 9 / 10)) = - (a * 9 / 10)).
    { apply wrap64_id. unfold firstInexactCapacity in Ha. int64_lia. }
    rewrite Hw. split.
    + rewrite Z.mul_opp_l, Z.quot_opp_l by lia.
      rewrite Z.quot_div_nonneg by lia. reflexivity.
    + intros _. lia.
Qed.

Lemma gcTarget_truncates_towards_zero_witness :
  gcTarget defaults (sampleDB (-11) 0 0 0) = -9.
Proof.
  destruct (gcTarget_truncates_towards_zero defaults (sampleDB (-11) 0 0 0) eq_refl)
    as [H _].
  - unfold firstInexactCapacity. cbn. lia.
  - rewrite H. reflexivity.
Defined.
